(** * MaMPy-TIGD: union-find max-tree (Berger et al.), [algo2.py]

    A shallow embedding of [src/algo2.py] and the properties of its
    specification.

    Conventions of the embedding.
    - Pixel indices and array contents are integers ([Z]); Python's [%] on
      integers is floored, as [Z.modulo] is.
    - A NumPy array is its flat (row-major) contents together with its
      shape.  The [parents] and [zparents] arrays have [dtype=np.uint32]:
      what is stored in them is reduced modulo [2^32].
    - Indexing follows NumPy: a negative index counts from the end of the
      array, an index outside [-len .. len-1] raises [IndexError].  A raised
      exception is [None]; a returned value is [Some].
    - In-place updates are explicit state passing: a function that assigns
      into an array returns its new contents.  Which arrays a call writes
      into is read on a second embedding, where an array is a reference
      into a store of buffers ([maxtree_berger_at]); it is shown to compute
      what the first one computes ([maxtree_berger_at_eq]).
    - [find_pixel_parent] is called on arrays of shape [(resolution, 1)]:
      [parents[index]] is a row, and each level of the recursion indexes
      with an array of one more dimension than the level above.  NumPy
      arrays have at most [NPY_MAXDIMS] dimensions, so the recursion has at
      most [NPY_MAXDIMS] levels: a deeper one raises [IndexError], on a
      cycle as on a long chain.  Python's own recursion limit is far above
      and is not modelled.
    - [argsort] does not fix the order of equal intensities: the function
      is modelled from the sorted pixels on ([maxtree_berger_from]) and
      the properties hold for every order that sorts the image
      ([is_argsort]); [maxtree_berger] takes the stable one.
    - The properties of the whole function assume [resolution + 2 < 2^32],
      so that pixel indices and the sentinel fit the [uint32] arrays. *)

From stdpp Require Import base relations list sorting.
From Stdlib Require Import ZArith Lia.

Local Open Scope Z_scope.

(** ** Arrays *)

Definition to_uint32 (v : Z) : Z := v `mod` 2 ^ 32.

(** [a[i]] addresses cell [i] when [0 <= i < len], cell [len + i] when
    [-len <= i < 0]. *)
Definition norm_index (a : list Z) (i : Z) : option nat :=
  let n := Z.of_nat (length a) in
  if decide (0 ≤ i < n) then Some (Z.to_nat i)
  else if decide (- n ≤ i < 0) then Some (Z.to_nat (n + i))
  else None.

Definition getitem (a : list Z) (i : Z) : option Z :=
  k ← norm_index a i; a !! k.

Definition setitem (a : list Z) (i v : Z) : option (list Z) :=
  k ← norm_index a i; Some (<[k := v]> a).

(** A [for] loop whose body can raise. *)
Fixpoint for_each {S A : Type} (body : S → A → option S) (s : S) (l : list A)
  : option S :=
  match l with
  | [] => Some s
  | x :: l' => s' ← body s x; for_each body s' l'
  end.

Record ndarray := NdArray { shape : list nat; data : list Z }.

(** ** [find_pixel_parent] (lines 14-28) *)

Fixpoint find_pixel_parent_rec (fuel : nat) (parents : list Z) (index : Z)
  : option (list Z * Z) :=
  match fuel with
  | O => None
  | S fuel' =>
      root ← getitem parents index;
      parents ← (if decide (root ≠ index) then
                   '(parents, r) ← find_pixel_parent_rec fuel' parents root;
                   setitem parents index r
                 else Some parents);
      v ← getitem parents index;
      Some (parents, v)
  end.

(** The largest number of dimensions of a NumPy array (64 since NumPy 2;
    32 before). *)
Definition NPY_MAXDIMS : nat := 64.

Definition find_pixel_parent (parents : list Z) (index : Z)
  : option (list Z * Z) :=
  find_pixel_parent_rec NPY_MAXDIMS parents index.

(** ** [canonize] (lines 30-39) *)

Definition canonize_step (image parents : list Z) (pi : Z)
  : option (list Z) :=
  root ← getitem parents pi;
  i_root ← getitem image root;
  p_root ← getitem parents root;
  i_p_root ← getitem image p_root;
  if decide (i_root = i_p_root) then setitem parents pi p_root
  else Some parents.

Definition canonize (image parents nodes_order : list Z) : option (list Z) :=
  for_each (canonize_step image) parents nodes_order.

(** ** Neighbour enumeration (lines 41-93) *)

Definition append_if (c : bool) (neighbors : list Z) (x : Z) : list Z :=
  if c then neighbors ++ [x] else neighbors.

Definition get_4_neighbors (width height resolution pi pixel_row : Z)
  : list Z :=
  let top_pi := pi - width in
  let bottom_pi := pi + width in
  let left_pi := pi - 1 in
  let right_pi := pi + 1 in
  let neighbors := [] in
  let neighbors := append_if (bool_decide (0 ≤ top_pi)) neighbors top_pi in
  let neighbors :=
    append_if (bool_decide (bottom_pi < resolution)) neighbors bottom_pi in
  let neighbors :=
    append_if (bool_decide (left_pi `mod` width = pixel_row))
              neighbors left_pi in
  let neighbors :=
    append_if (bool_decide (right_pi `mod` width = pixel_row))
              neighbors right_pi in
  neighbors.

Definition get_8_neighbors (width height resolution pi pixel_row : Z)
  : list Z :=
  let neighbors := get_4_neighbors width height resolution pi pixel_row in
  let top_left_pi := pi - width - 1 in
  let top_right_pi := top_left_pi + 2 in
  let bottom_left_pi := pi + width - 1 in
  let bottom_right_pi := bottom_left_pi + 2 in
  let neighbors :=
    append_if (bool_decide (0 ≤ top_left_pi)
               && bool_decide (top_left_pi `mod` width = pixel_row - 1))
              neighbors top_left_pi in
  let neighbors :=
    append_if (bool_decide (0 ≤ top_right_pi)
               && bool_decide (top_right_pi `mod` width = pixel_row - 1))
              neighbors top_right_pi in
  let neighbors :=
    append_if (bool_decide (bottom_left_pi < resolution)
               && bool_decide (bottom_left_pi `mod` width = pixel_row + 1))
              neighbors bottom_left_pi in
  let neighbors :=
    append_if (bool_decide (bottom_right_pi < resolution)
               && bool_decide (bottom_right_pi `mod` width = pixel_row + 1))
              neighbors bottom_right_pi in
  neighbors.

(** ** [maxtree_berger] (lines 95-158) *)

(** [flatten_image.argsort()]: the pixel indices by non-decreasing
    intensity.  NumPy leaves the order of equal intensities to the sorting
    routine; [argsort] fixes it by ascending index, and [is_argsort] is
    what every outcome of the routine satisfies. *)
Definition pixel_le (x y : Z * Z) : Prop :=
  x.1 < y.1 ∨ (x.1 = y.1 ∧ x.2 ≤ y.2).

#[global] Instance pixel_le_dec x y : Decision (pixel_le x y).
Proof. unfold pixel_le. apply _. Defined.

Definition indices (n : nat) : list Z := Z.of_nat <$> seq 0 n.

Definition argsort (a : list Z) : list Z :=
  snd <$> merge_sort pixel_le (zip a (indices (length a))).

Definition is_argsort (a sorted_pixels : list Z) : Prop :=
  sorted_pixels ≡ₚ indices (length a) ∧
  ∀ (i j : nat) (p q vp vq : Z),
    (i ≤ j)%nat →
    sorted_pixels !! i = Some p → sorted_pixels !! j = Some q →
    getitem a p = Some vp → getitem a q = Some vq →
    vp ≤ vq.

(** Line 146: keep the neighbours whose [parents] entry is defined. *)
Fixpoint filter_defined (parents : list Z) (undefined_node : Z)
    (neighbors : list Z) : option (list Z) :=
  match neighbors with
  | [] => Some []
  | n :: neighbors =>
      v ← getitem parents n;
      rest ← filter_defined parents undefined_node neighbors;
      Some (if decide (v ≠ undefined_node) then n :: rest else rest)
  end.

(** Lines 150-153, one neighbour.  [find_pixel_parent] returns
    [zparents[nei_pi]], which for an integer index is a view of that row
    and not a copy: [nei_root] is read again, after the store into
    [zparents], when it indexes [parents]. *)
Definition merge_node (pi : Z) (st : list Z * list Z) (nei_pi : Z)
  : option (list Z * list Z) :=
  let '(parents, zparents) := st in
  '(zparents, nei_root) ← find_pixel_parent zparents nei_pi;
  if decide (nei_root ≠ pi) then
    zparents ← setitem zparents nei_root (to_uint32 pi);
    nei_root ← getitem zparents nei_pi;
    parents ← setitem parents nei_root (to_uint32 pi);
    Some (parents, zparents)
  else Some (parents, zparents).

(** Lines 131-153, one pixel of the pass. *)
Definition visit_pixel (width height resolution undefined_node : Z)
    (connection8 : bool) (st : list Z * list Z) (pi : Z)
  : option (list Z * list Z) :=
  let '(parents, zparents) := st in
  parents ← setitem parents pi (to_uint32 pi);
  zparents ← setitem zparents pi (to_uint32 pi);
  let pixel_row := pi `mod` width in
  let neighbors :=
    if connection8
    then get_8_neighbors width height resolution pi pixel_row
    else get_4_neighbors width height resolution pi pixel_row in
  neighbors ← filter_defined parents undefined_node neighbors;
  for_each (merge_node pi) (parents, zparents) neighbors.

(** Lines 105-153: the construction pass, before [canonize]. *)
Definition build (sorted_pixels : list Z) (image : ndarray)
    (connection8 : bool) : option (list Z * list Z) :=
  width ← Z.of_nat <$> shape image !! 0%nat;
  height ← Z.of_nat <$> shape image !! 1%nat;
  let flatten_image := data image in
  let resolution := Z.of_nat (length flatten_image) in
  let undefined_node := resolution + 2 in
  let parents :=
    replicate (length flatten_image) (to_uint32 undefined_node) in
  let zparents := parents in
  for_each (visit_pixel width height resolution undefined_node connection8)
           (parents, zparents) (reverse sorted_pixels).

(** The whole function, from the sorted pixels on.  The returned parents
    have the shape of the image and the flat contents of [parents]. *)
Definition maxtree_berger_from (sorted_pixels : list Z) (image : ndarray)
    (connection8 : bool) : option (ndarray * list Z) :=
  '(parents, _) ← build sorted_pixels image connection8;
  parents ← canonize (data image) parents sorted_pixels;
  Some (NdArray (shape image) parents, sorted_pixels).

Definition maxtree_berger (image : ndarray) (connection8 : bool)
  : option (ndarray * list Z) :=
  maxtree_berger_from (argsort (data image)) image connection8.

(** The scenarios of the specification, and small images. *)
Definition image_1x4 : ndarray := NdArray [1%nat; 4%nat] [5; 3; 3; 5].
Definition image_4x1 : ndarray := NdArray [4%nat; 1%nat] [5; 3; 3; 5].
Definition image_2x2 : ndarray := NdArray [2%nat; 2%nat] [5; 3; 4; 3].
Definition image_3x2 : ndarray :=
  NdArray [3%nat; 2%nat] [4; 7; 4; 9; 4; 8].
Definition image_2x3 : ndarray :=
  NdArray [2%nat; 3%nat] [5; 9; 7; 9; 3; 9].
Definition image_2x2_distinct : ndarray :=
  NdArray [2%nat; 2%nat] [5; 3; 4; 2].

(** An image of shape [(2, 66)] with distinct intensities: along the even
    pixels [2, 4, .., 130] they decrease, pixel [0] is the darkest. *)
Definition image_2x66 : ndarray :=
  NdArray [2%nat; 66%nat]
    ((λ p, if decide (p = 0) then 1
           else if Z.even p then 400 - p else 1000 + p) <$> indices 132).

(** A parents array of 65 cells: cell [i] holds [i + 1], the last cell
    holds its own index, 64. *)
Definition long_chain : list Z := (Z.of_nat <$> seq 1 64) ++ [64].

(** ** The arrays of a call as objects of a store *)

(** The store holds the buffer of every array alive, each at its
    reference; an array is a shape and the reference of its buffer.  Two
    names of one array (a parameter and the caller's variable, an array
    and its reshaped view) share the reference.  [flatten], [argsort],
    [np.full] and [copy] allocate a new buffer; an assignment
    [a[i] = v] writes into the buffer of [a]. *)
Abbreviation ref := nat (only parsing).
Abbreviation heap := (list (list Z)) (only parsing).

Record array := Array { array_shape : list nat; array_ref : ref }.

Definition alloc (h : heap) (a : list Z) : heap * ref :=
  (h ++ [a], length h).

Definition getitem_at (h : heap) (r : ref) (i : Z) : option Z :=
  a ← h !! r; getitem a i.

Definition setitem_at (h : heap) (r : ref) (i v : Z) : option heap :=
  a ← h !! r; a ← setitem a i v; Some (<[r := a]> h).

(** [for x in a] and [for x in reversed(a)] on an array of the store: the
    length is taken when the loop starts, each cell is read when its turn
    comes. *)
Fixpoint for_cells (body : heap → Z → option heap) (a : ref)
    (cells : list nat) (h : heap) : option heap :=
  match cells with
  | [] => Some h
  | i :: cells =>
      x ← (h !! a) ≫= (.!! i);
      h ← body h x;
      for_cells body a cells h
  end.

Definition for_in (body : heap → Z → option heap) (a : ref) (h : heap)
  : option heap :=
  buf ← h !! a; for_cells body a (seq 0 (length buf)) h.

Definition for_in_reversed (body : heap → Z → option heap) (a : ref)
    (h : heap) : option heap :=
  buf ← h !! a; for_cells body a (reverse (seq 0 (length buf))) h.

(** The functions of the source once more, on references (same lines). *)
Fixpoint find_pixel_parent_at (fuel : nat) (h : heap) (parents : ref)
    (index : Z) : option (heap * Z) :=
  match fuel with
  | O => None
  | S fuel' =>
      root ← getitem_at h parents index;
      h ← (if decide (root ≠ index) then
             '(h, r) ← find_pixel_parent_at fuel' h parents root;
             setitem_at h parents index r
           else Some h);
      v ← getitem_at h parents index;
      Some (h, v)
  end.

Definition canonize_step_at (image parents : ref) (h : heap) (pi : Z)
  : option heap :=
  root ← getitem_at h parents pi;
  i_root ← getitem_at h image root;
  p_root ← getitem_at h parents root;
  i_p_root ← getitem_at h image p_root;
  if decide (i_root = i_p_root) then setitem_at h parents pi p_root
  else Some h.

Definition canonize_at (image parents nodes_order : ref) (h : heap)
  : option heap :=
  for_in (canonize_step_at image parents) nodes_order h.

Fixpoint filter_defined_at (h : heap) (parents : ref) (undefined_node : Z)
    (neighbors : list Z) : option (list Z) :=
  match neighbors with
  | [] => Some []
  | n :: neighbors =>
      v ← getitem_at h parents n;
      rest ← filter_defined_at h parents undefined_node neighbors;
      Some (if decide (v ≠ undefined_node) then n :: rest else rest)
  end.

Definition merge_node_at (pi : Z) (parents zparents : ref) (h : heap)
    (nei_pi : Z) : option heap :=
  '(h, nei_root) ← find_pixel_parent_at NPY_MAXDIMS h zparents nei_pi;
  if decide (nei_root ≠ pi) then
    h ← setitem_at h zparents nei_root (to_uint32 pi);
    nei_root ← getitem_at h zparents nei_pi;
    setitem_at h parents nei_root (to_uint32 pi)
  else Some h.

Definition visit_pixel_at (width height resolution undefined_node : Z)
    (connection8 : bool) (parents zparents : ref) (h : heap) (pi : Z)
  : option heap :=
  h ← setitem_at h parents pi (to_uint32 pi);
  h ← setitem_at h zparents pi (to_uint32 pi);
  let pixel_row := pi `mod` width in
  let neighbors :=
    if connection8
    then get_8_neighbors width height resolution pi pixel_row
    else get_4_neighbors width height resolution pi pixel_row in
  neighbors ← filter_defined_at h parents undefined_node neighbors;
  for_each (merge_node_at pi parents zparents) h neighbors.

(** Lines 105-158.  [sorted] is what [argsort] returns (line 117); line
    157 reshapes [parents], which shares its buffer. *)
Definition maxtree_berger_at (sorted : list Z) (h : heap) (image : array)
    (connection8 : bool) : option (heap * (array * array)) :=
  width ← Z.of_nat <$> array_shape image !! 0%nat;
  height ← Z.of_nat <$> array_shape image !! 1%nat;
  pixels ← h !! array_ref image;
  let '(h, flatten_image) := alloc h pixels in
  let resolution := Z.of_nat (length pixels) in
  let undefined_node := resolution + 2 in
  let '(h, sorted_pixels) := alloc h sorted in
  let '(h, parents) :=
    alloc h (replicate (length pixels) (to_uint32 undefined_node)) in
  filled ← h !! parents;
  let '(h, zparents) := alloc h filled in
  h ← for_in_reversed
        (visit_pixel_at width height resolution undefined_node connection8
                        parents zparents)
        sorted_pixels h;
  h ← canonize_at flatten_image parents sorted_pixels h;
  Some (h, (Array (array_shape image) parents,
            Array [length sorted] sorted_pixels)).

(** * Vocabulary of the properties *)

(** A two-dimensional array whose contents fill its shape. *)
Definition rectangular (image : ndarray) : Prop :=
  match shape image with
  | [w; h] => length (data image) = (w * h)%nat
  | _ => False
  end.

(** [image[parents[p]]], with its exceptions. *)
Definition parent_level (image parents : list Z) (p : Z) : option Z :=
  root ← getitem parents p; getitem image root.

(** [chain parents index path r]: following the parent pointers from
    [index] visits [path] (from [index] on, [r] excluded) and stops at the
    first self-referencing entry, [r]. *)
Inductive chain (parents : list Z) : Z → list Z → Z → Prop :=
  | chain_root r :
      getitem parents r = Some r → chain parents r [] r
  | chain_step i j path r :
      getitem parents i = Some j → j ≠ i →
      chain parents j path r → chain parents i (i :: path) r.

(** The array after the entries of [path] have been pointed at [r]. *)
Definition compress (parents : list Z) (path : list Z) (r : Z) : list Z :=
  foldr (λ x a, default a (setitem a x r)) parents path.

(** [q] is the parent of [p]. *)
Definition parent_step (parents : list Z) (p q : Z) : Prop :=
  getitem parents p = Some q.

(** ** Forests that follow the order

    [linked order k a]: every pixel at a position [i >= k] of the order has
    an entry in [a], a pixel at a position between [k] and [i]: itself or
    one that the pass visits later.  [fresh order undefined k a]: the
    pixels before position [k] still hold [undefined]. *)
Definition linked (order : list Z) (k : nat) (a : list Z) : Prop :=
  ∀ i p, (k ≤ i)%nat → order !! i = Some p →
    ∃ j q, (k ≤ j ≤ i)%nat ∧ order !! j = Some q
           ∧ a !! Z.to_nat p = Some q.

Definition fresh (order : list Z) (undefined : Z) (k : nat) (a : list Z)
  : Prop :=
  ∀ i p, (i < k)%nat → order !! i = Some p →
    a !! Z.to_nat p = Some undefined.

(** The state of the pass when the pixels from position [k] on have been
    visited. *)
Definition pass_inv (flat order : list Z) (k : nat) (st : list Z * list Z)
  : Prop :=
  length st.1 = length flat ∧ length st.2 = length flat ∧
  linked order k st.1 ∧ linked order k st.2 ∧
  fresh order (Z.of_nat (length flat) + 2) k st.1.

(** [q] is settled in [P]: a pixel whose parent is [q] is left alone by
    [canonize_step]. *)
Definition settled (flat P : list Z) (q : Z) : Prop :=
  ∀ t vq vt, getitem P q = Some t → getitem flat q = Some vq →
             getitem flat t = Some vt → vq = vt → t = q.

(** The array when [canonize] has treated the first [m] pixels of the
    order: their parents are settled. *)
Definition canon_inv (flat order : list Z) (m : nat) (P : list Z) : Prop :=
  length P = length flat ∧ linked order 0 P ∧
  ∀ i p q, (i < m)%nat → order !! i = Some p → getitem P p = Some q →
           settled flat P q.

(** [same_class order width k a]: the entry of every pixel from position
    [k] of the order on differs from the pixel by a multiple of [width]. *)
Definition same_class (order : list Z) (width : Z) (k : nat) (a : list Z)
  : Prop :=
  ∀ i p q, (k ≤ i)%nat → order !! i = Some p →
           a !! Z.to_nat p = Some q → q `mod` width = p `mod` width.

(** The store in which [parents] and [zparents] hold the two arrays of a
    state of the pass. *)
Definition with_arrays (h : heap) (parents zparents : ref)
    (st : list Z * list Z) : heap :=
  <[parents := st.1]> (<[zparents := st.2]> h).

(** * Properties *)

(** ** Indexing *)

Lemma norm_index_lt a i k : norm_index a i = Some k → (k < length a)%nat.
Proof. unfold norm_index. intros H. repeat case_decide; simplify_eq; lia. Qed.

Lemma norm_index_length a b i :
  length a = length b → norm_index a i = norm_index b i.
Proof. unfold norm_index. by intros ->. Qed.

Lemma norm_index_nonneg a i :
  0 ≤ i < Z.of_nat (length a) → norm_index a i = Some (Z.to_nat i).
Proof. unfold norm_index. intros H. by rewrite decide_True. Qed.

Lemma getitem_nonneg a i : 0 ≤ i → getitem a i = a !! Z.to_nat i.
Proof.
  intros Hi. unfold getitem, norm_index.
  repeat case_decide; simpl; try done; try lia.
  symmetry. apply lookup_ge_None. lia.
Qed.

Lemma getitem_of_nat a (k : nat) : getitem a (Z.of_nat k) = a !! k.
Proof. rewrite getitem_nonneg by lia. by rewrite Nat2Z.id. Qed.

Lemma setitem_nonneg a i v :
  0 ≤ i < Z.of_nat (length a) → setitem a i v = Some (<[Z.to_nat i := v]> a).
Proof. intros H. unfold setitem. by rewrite norm_index_nonneg. Qed.

Lemma setitem_length a i v a' : setitem a i v = Some a' → length a' = length a.
Proof.
  unfold setitem. intros H. simplify_option_eq. apply length_insert.
Qed.

Lemma getitem_setitem a i v a' j :
  setitem a i v = Some a' →
  getitem a' j =
    if decide (norm_index a j = norm_index a i) then Some v else getitem a j.
Proof.
  unfold setitem, getitem. intros H.
  destruct (norm_index a i) as [k|] eqn:Hk; [|done].
  simpl in H. injection H as <-.
  rewrite (norm_index_length _ a) by apply length_insert.
  destruct (norm_index a j) as [kj|] eqn:Hj; simpl.
  - destruct (decide (Some kj = Some k)) as [Heq|Hne].
    + injection Heq as ->. apply list_lookup_insert_eq.
      by eapply norm_index_lt.
    + apply list_lookup_insert_ne. congruence.
  - done.
Qed.

Lemma getitem_setitem_eq a i v a' :
  setitem a i v = Some a' → getitem a' i = Some v.
Proof. intros H. rewrite (getitem_setitem _ _ _ _ _ H). by rewrite decide_True. Qed.

Lemma getitem_is_Some a i v : getitem a i = Some v → is_Some (norm_index a i).
Proof. unfold getitem. destruct (norm_index a i); naive_solver. Qed.

Lemma setitem_is_Some a i v : is_Some (norm_index a i) → is_Some (setitem a i v).
Proof. unfold setitem. intros [k ->]. by eexists. Qed.

(** ** Loops *)

Lemma for_each_invariant {S A} (body : S → A → option S) (P : S → Prop) l :
  (∀ s x s', x ∈ l → P s → body s x = Some s' → P s') →
  ∀ s s', P s → for_each body s l = Some s' → P s'.
Proof.
  induction l as [|x l IH]; intros Hbody s s' Hs Hrun; simpl in Hrun.
  - by simplify_eq.
  - destruct (body s x) as [s1|] eqn:Hx; simplify_option_eq.
    eapply IH; [|eapply Hbody; [|exact Hs|exact Hx]|exact Hrun].
    + intros s2 y s3 Hy. apply Hbody. by right.
    + by left.
Qed.

Lemma for_each_app {S A} (body : S → A → option S) s l1 l2 :
  for_each body s (l1 ++ l2) = s1 ← for_each body s l1; for_each body s1 l2.
Proof.
  revert s. induction l1 as [|x l1 IH]; intros s; simpl; [done|].
  destruct (body s x); simpl; [apply IH|done].
Qed.

Lemma getitem_same_cell a i j :
  norm_index a j = norm_index a i → getitem a j = getitem a i.
Proof. unfold getitem. by intros ->. Qed.

(** ** [canonize] keeps the level of every parent *)

Lemma canonize_step_length image parents pi parents' :
  canonize_step image parents pi = Some parents' →
  length parents' = length parents.
Proof.
  unfold canonize_step. intros H.
  destruct (getitem parents pi) as [root|]; [|done]. simpl in H.
  destruct (getitem image root) as [ir|]; [|done]. simpl in H.
  destruct (getitem parents root) as [pr|]; [|done]. simpl in H.
  destruct (getitem image pr) as [ipr|]; [|done]. simpl in H.
  case_decide; [by eapply setitem_length|by simplify_eq].
Qed.

Lemma canonize_step_level image parents pi parents' :
  canonize_step image parents pi = Some parents' →
  ∀ p, parent_level image parents' p = parent_level image parents p.
Proof.
  unfold canonize_step. intros H p.
  destruct (getitem parents pi) as [root|] eqn:Hroot; [|done]. simpl in H.
  destruct (getitem image root) as [ir|] eqn:Hir; [|done]. simpl in H.
  destruct (getitem parents root) as [pr|] eqn:Hpr; [|done]. simpl in H.
  destruct (getitem image pr) as [ipr|] eqn:Hipr; [|done]. simpl in H.
  case_decide as Hlevel; [|by simplify_eq].
  unfold parent_level. rewrite (getitem_setitem _ _ _ _ _ H).
  case_decide as Hcell; [|done].
  rewrite (getitem_same_cell _ _ _ Hcell), Hroot. simpl. congruence.
Qed.

(** C9.  Whatever the image, the parent array and the traversal order, a
    run of [canonize] that returns leaves [image[parents[p]]] as it was,
    for every index [p]: a parent is only replaced by a pixel of the same
    intensity. *)
Theorem canonize_preserves_parent_level image parents nodes_order parents' :
  canonize image parents nodes_order = Some parents' →
  ∀ p, parent_level image parents' p = parent_level image parents p.
Proof.
  unfold canonize. revert parents.
  induction nodes_order as [|pi l IH]; intros parents Hrun p; simpl in Hrun.
  - by simplify_eq.
  - destruct (canonize_step image parents pi) as [parents1|] eqn:Hstep;
      [|done].
    simpl in Hrun. rewrite (IH _ Hrun p).
    by eapply canonize_step_level.
Qed.

Lemma canonize_preserves_parent_level_witness :
  canonize [3; 3; 5] [0; 0; 1] [0; 1; 2] = Some [0; 0; 0] ∧
  ∀ p, parent_level [3; 3; 5] [0; 0; 0] p = parent_level [3; 3; 5] [0; 0; 1] p.
Proof.
  split; [reflexivity|].
  exact (canonize_preserves_parent_level
           [3; 3; 5] [0; 0; 1] [0; 1; 2] [0; 0; 0] eq_refl).
Defined.

(** ** [find_pixel_parent] *)

Lemma compress_length parents path r :
  length (compress parents path r) = length parents.
Proof.
  induction path as [|x path IH]; simpl; [done|].
  destruct (setitem _ x r) as [a|] eqn:Ha; simpl; [|done].
  by rewrite (setitem_length _ _ _ _ Ha).
Qed.

Lemma compress_cons parents x path r :
  is_Some (norm_index parents x) →
  setitem (compress parents path r) x r = Some (compress parents (x :: path) r).
Proof.
  intros Hx. simpl.
  destruct (setitem_is_Some (compress parents path r) x r) as [a ->]; [|done].
  by rewrite (norm_index_length _ parents) by apply compress_length.
Qed.

Lemma chain_is_Some parents i path r x :
  chain parents i path r → x ∈ path → is_Some (norm_index parents x).
Proof.
  induction 1 as [|i j path r Hi Hne Hc IH]; intros Hx.
  - by apply elem_of_nil in Hx.
  - apply elem_of_cons in Hx as [->|Hx]; [by eapply getitem_is_Some|auto].
Qed.

Lemma find_pixel_parent_rec_chain parents index path r :
  chain parents index path r →
  ∀ fuel, (length path < fuel)%nat →
    find_pixel_parent_rec fuel parents index
    = Some (compress parents path r, r).
Proof.
  induction 1 as [r Hr|i j path r Hi Hne Hc IH]; intros fuel Hfuel.
  - destruct fuel as [|fuel]; [simpl in Hfuel; lia|]. simpl.
    rewrite Hr. simpl. rewrite decide_False by naive_solver. simpl.
    by rewrite Hr.
  - destruct fuel as [|fuel]; [simpl in Hfuel; lia|]. simpl.
    rewrite Hi. simpl. rewrite decide_True by done.
    rewrite IH by (simpl in Hfuel; lia). simpl.
    pose proof (compress_cons parents i path r
                  (getitem_is_Some _ _ _ Hi)) as Hset.
    rewrite Hset. simpl.
    change (default _ _) with (compress parents (i :: path) r).
    by rewrite (getitem_setitem_eq _ _ _ _ Hset).
Qed.

Lemma find_pixel_parent_rec_inv fuel parents index parents' r :
  find_pixel_parent_rec fuel parents index = Some (parents', r) →
  ∃ path, chain parents index path r ∧ parents' = compress parents path r.
Proof.
  revert parents index parents' r.
  induction fuel as [|fuel IH]; intros parents index parents' r H;
    simpl in H; [done|].
  destruct (getitem parents index) as [root|] eqn:Hroot; [|done].
  simpl in H. case_decide as Hne.
  - destruct (find_pixel_parent_rec fuel parents root) as [[p1 r1]|] eqn:Hrec;
      [|done].
    simpl in H. destruct (IH _ _ _ _ Hrec) as (path & Hc & ->).
    destruct (setitem _ index r1) as [p2|] eqn:Hset; [|done]. simpl in H.
    rewrite (getitem_setitem_eq _ _ _ _ Hset) in H. simpl in H.
    injection H as <- <-.
    exists (index :: path). split; [by eapply chain_step|].
    simpl. by rewrite Hset.
  - simpl in H. rewrite Hroot in H. simpl in H. injection H as <- <-.
    exists []. split; [|done].
    assert (root = index) as ->
      by (destruct (decide (root = index)); naive_solver).
    by apply chain_root.
Qed.

Lemma chain_det parents i path r path' r' :
  chain parents i path r → chain parents i path' r' → path = path' ∧ r = r'.
Proof.
  intros Hc. revert path' r'.
  induction Hc as [r Hr|i j path r Hi Hne Hc IH]; intros path' r' Hc';
    inversion Hc'; simplify_eq; try done.
  by destruct (IH _ _ ltac:(eassumption)) as [-> ->].
Qed.

Lemma chain_suffix parents i l1 y l2 r :
  chain parents i (l1 ++ y :: l2) r → chain parents y (y :: l2) r.
Proof.
  revert i. induction l1 as [|x l1 IH]; intros i Hc; simpl in Hc.
  - inversion Hc; simplify_eq. by eapply chain_step.
  - inversion Hc; simplify_eq. eauto.
Qed.

Lemma compress_getitem_or parents path r j :
  getitem (compress parents path r) j = Some r ∨
  getitem (compress parents path r) j = getitem parents j.
Proof.
  induction path as [|x path IH]; simpl; [by right|].
  destruct (setitem _ x r) as [a|] eqn:Ha; simpl; [|done].
  rewrite (getitem_setitem _ _ _ _ _ Ha). case_decide; [by left|done].
Qed.

Lemma compress_getitem_in parents path r x :
  (∀ y, y ∈ path → is_Some (norm_index parents y)) →
  x ∈ path → getitem (compress parents path r) x = Some r.
Proof.
  induction path as [|y path IH]; intros Hsome Hx.
  - by apply elem_of_nil in Hx.
  - pose proof (compress_cons parents y path r
                  (Hsome y ltac:(by left))) as Hset.
    rewrite (getitem_setitem _ _ _ _ _ Hset).
    case_decide as Hcell; [done|].
    apply elem_of_cons in Hx as [->|Hx]; [done|].
    apply IH; [|done]. intros z Hz. apply Hsome. by right.
Qed.

Lemma compress_lookup_notin parents path r (k : nat) :
  (∀ x, x ∈ path → norm_index parents x ≠ Some k) →
  compress parents path r !! k = parents !! k.
Proof.
  induction path as [|y path IH]; intros Hk; simpl; [done|].
  unfold setitem.
  rewrite (norm_index_length _ parents) by apply compress_length.
  destruct (norm_index parents y) as [ky|] eqn:Hy; simpl.
  - rewrite list_lookup_insert_ne.
    + apply IH. intros x Hx. apply Hk. by right.
    + intros ->. by apply (Hk y); [left|].
  - apply IH. intros x Hx. apply Hk. by right.
Qed.

Lemma find_pixel_parent_chain parents index path r :
  chain parents index path r → (length path < NPY_MAXDIMS)%nat →
  find_pixel_parent parents index = Some (compress parents path r, r).
Proof. intros Hc Hlen. by apply find_pixel_parent_rec_chain. Qed.


(** On a chain of at most [NPY_MAXDIMS] cells [find_pixel_parent] returns
    the root [r]; [r] stays self-referencing, every entry on the path
    points at [r] afterwards, and every other cell is unchanged. *)
Lemma find_pixel_parent_short_chain parents index path r :
  chain parents index path r → (length path < NPY_MAXDIMS)%nat →
  ∃ parents',
    find_pixel_parent parents index = Some (parents', r) ∧
    getitem parents r = Some r ∧
    getitem parents' r = Some r ∧
    (∀ x, x ∈ path → getitem parents' x = Some r) ∧
    (∀ k : nat, (∀ x, x ∈ path → norm_index parents x ≠ Some k) →
                parents' !! k = parents !! k) ∧
    length parents' = length parents.
Proof.
  intros Hc Hlen. exists (compress parents path r).
  assert (getitem parents r = Some r) as Hr.
  { clear -Hc. induction Hc; auto. }
  split_and!.
  - by apply find_pixel_parent_chain.
  - done.
  - destruct (compress_getitem_or parents path r r) as [H|H]; congruence.
  - intros x Hx. apply compress_getitem_in; [|done].
    intros y Hy. by eapply chain_is_Some.
  - intros k Hk. by apply compress_lookup_notin.
  - apply compress_length.
Qed.

Lemma chain_long_chain (k : nat) :
  (k ≤ 64)%nat →
  chain long_chain (Z.of_nat (64 - k))
        (Z.of_nat <$> seq (64 - k) k) 64.
Proof.
  induction k as [|k IH]; intros Hk.
  - apply chain_root. reflexivity.
  - replace (seq (64 - S k) (S k))
      with ((64 - S k)%nat :: seq (64 - k) k)
      by (simpl; f_equal; f_equal; lia).
    rewrite fmap_cons.
    apply (chain_step _ _ (Z.of_nat (64 - k))); [| lia |apply IH; lia].
    rewrite getitem_of_nat. unfold long_chain.
    rewrite lookup_app_l by (rewrite length_fmap, length_seq; lia).
    rewrite list_lookup_fmap, lookup_seq_lt by lia. simpl. f_equal. lia.
Qed.

(** C5.  On the array [long_chain] of 65 cells the parent pointers from
    [0] reach the self-referencing entry [64] through the 64 cells
    [0 .. 63], and [find_pixel_parent] raises; from [1], a chain of 64
    cells, it returns [64]. *)
Theorem find_pixel_parent_long_chain_raises :
  chain long_chain 0 (Z.of_nat <$> seq 0 64) 64 ∧
  find_pixel_parent long_chain 0 = None ∧
  ∃ parents', find_pixel_parent long_chain 1 = Some (parents', 64).
Proof.
  split; [exact (chain_long_chain 64 ltac:(lia))|].
  split; [by vm_compute|].
  eexists. by vm_compute.
Qed.

Example find_pixel_parent_example :
  find_pixel_parent [1; 2; 2; 0] 0 = Some ([2; 2; 2; 0], 2).
Proof. reflexivity. Qed.

(** ** Neighbour enumeration *)

Lemma Forall_append_if (P : Z → Prop) c l x :
  Forall P l → (c = true → P x) → Forall P (append_if c l x).
Proof.
  intros Hl Hx. destruct c; simpl; [|done].
  apply Forall_app. split; [done|]. constructor; auto.
Qed.

Lemma elem_of_append_if c l x y :
  y ∈ append_if c l x ↔ y ∈ l ∨ (c = true ∧ y = x).
Proof.
  destruct c; simpl.
  - rewrite elem_of_app, list_elem_of_singleton. tauto.
  - split; [tauto|]. by intros [?|[? ?]].
Qed.

Lemma mod_pred_ne width pi : 2 ≤ width → (pi - 1) `mod` width ≠ pi `mod` width.
Proof.
  intros Hw Heq.
  pose proof (Z.div_mod pi width ltac:(lia)) as H1.
  pose proof (Z.div_mod (pi - 1) width ltac:(lia)) as H2.
  rewrite Heq in H2.
  assert (width * (pi `div` width - (pi - 1) `div` width) = 1) as H by lia.
  apply Z.eq_mul_1 in H. lia.
Qed.

Lemma mod_succ_ne width pi : 2 ≤ width → (pi + 1) `mod` width ≠ pi `mod` width.
Proof.
  intros Hw Heq. apply (mod_pred_ne width (pi + 1) Hw).
  by replace (pi + 1 - 1) with pi by lia.
Qed.

(** With two rows or more, the test of lines 61-64 never holds: the left
    and right pixels are never neighbours. *)
Lemma get_4_neighbors_vertical width height resolution pi :
  2 ≤ width →
  get_4_neighbors width height resolution pi (pi `mod` width)
  = append_if (bool_decide (pi + width < resolution))
      (append_if (bool_decide (0 ≤ pi - width)) [] (pi - width))
      (pi + width).
Proof.
  intros Hw. unfold get_4_neighbors.
  rewrite (bool_decide_eq_false_2 ((pi - 1) `mod` width = _))
    by by apply mod_pred_ne.
  rewrite (bool_decide_eq_false_2 ((pi + 1) `mod` width = _))
    by by apply mod_succ_ne.
  done.
Qed.

Lemma get_4_neighbors_in_range width height resolution pi :
  2 ≤ width → 0 ≤ pi < resolution →
  Forall (λ n, 0 ≤ n < resolution)
         (get_4_neighbors width height resolution pi (pi `mod` width)).
Proof.
  intros Hw Hpi. rewrite get_4_neighbors_vertical by done.
  repeat apply Forall_append_if; [constructor|..];
    intros Hc; apply bool_decide_eq_true in Hc; lia.
Qed.

Lemma get_8_neighbors_in_range width height resolution pi :
  2 ≤ width → 0 ≤ pi < resolution →
  Forall (λ n, 0 ≤ n < resolution)
         (get_8_neighbors width height resolution pi (pi `mod` width)).
Proof.
  intros Hw Hpi. unfold get_8_neighbors. cbv zeta.
  do 4 (apply Forall_append_if;
        [|intros Hc; apply andb_true_iff in Hc as [Hc _];
          apply bool_decide_eq_true in Hc; lia]).
  by apply get_4_neighbors_in_range.
Qed.

(** With a single row the same test always holds: [pi + 1] is a
    neighbour of every pixel, the last one included. *)
Lemma get_4_neighbors_single_row height resolution pi :
  pi + 1 ∈ get_4_neighbors 1 height resolution pi (pi `mod` 1).
Proof.
  unfold get_4_neighbors. apply elem_of_append_if. right.
  split; [|done]. apply bool_decide_eq_true. by rewrite !Z.mod_1_r.
Qed.

Lemma get_8_neighbors_single_row height resolution pi :
  pi + 1 ∈ get_8_neighbors 1 height resolution pi (pi `mod` 1).
Proof.
  unfold get_8_neighbors. cbv zeta.
  do 4 (apply elem_of_append_if; left).
  apply get_4_neighbors_single_row.
Qed.

(** C3.  At the corner [0] of a 2 x 2 image, [get_4_neighbors] returns the
    pixel below only: the pixel to the right, [1], is missing, and the
    corner has one neighbour, not two. *)
Theorem get_4_neighbors_corner :
  get_4_neighbors 2 2 4 0 (0 `mod` 2) = [2].
Proof. reflexivity. Qed.

(** C4.  On an image of one row and four columns, [get_4_neighbors] and
    [get_8_neighbors] at pixel [0] return a list that holds the index [-1]
    and holds [1] twice; at pixel [3] they return the index [4], past the
    end of the array. *)
Theorem get_neighbors_single_row_invalid :
  get_4_neighbors 1 4 4 0 (0 `mod` 1) = [1; -1; 1] ∧
  get_8_neighbors 1 4 4 0 (0 `mod` 1) = [1; -1; 1] ∧
  get_4_neighbors 1 4 4 3 (3 `mod` 1) = [2; 2; 4] ∧
  get_8_neighbors 1 4 4 3 (3 `mod` 1) = [2; 2; 4].
Proof. repeat split; reflexivity. Qed.

(** ** The sorted pixels *)

Lemma elem_of_indices n p : p ∈ indices n ↔ 0 ≤ p < Z.of_nat n.
Proof.
  unfold indices. rewrite list_elem_of_fmap. split.
  - intros (k & -> & Hk). apply elem_of_seq in Hk. lia.
  - intros Hp. exists (Z.to_nat p). split; [lia|]. apply elem_of_seq. lia.
Qed.

Lemma NoDup_indices n : NoDup (indices n).
Proof.
  unfold indices. apply NoDup_fmap_2; [|apply NoDup_seq].
  intros x y. lia.
Qed.

Lemma length_indices n : length (indices n) = n.
Proof. unfold indices. by rewrite length_fmap, length_seq. Qed.

Section sorted_pixels.
Context (flat order : list Z).
Context (Horder : is_argsort flat order).

Lemma order_NoDup : NoDup order.
Proof.
  destruct Horder as [Hperm _]. rewrite Hperm. apply NoDup_indices.
Qed.

Lemma order_length : length order = length flat.
Proof.
  destruct Horder as [Hperm _]. rewrite Hperm. apply length_indices.
Qed.

Lemma order_elem_of p : p ∈ order ↔ 0 ≤ p < Z.of_nat (length flat).
Proof.
  destruct Horder as [Hperm _]. rewrite Hperm. apply elem_of_indices.
Qed.

Lemma order_range i p :
  order !! i = Some p → 0 ≤ p < Z.of_nat (length flat).
Proof. intros H. apply order_elem_of. by eapply list_elem_of_lookup_2. Qed.

Lemma order_position p :
  0 ≤ p < Z.of_nat (length flat) → ∃ i, order !! i = Some p.
Proof. intros H. by apply list_elem_of_lookup_1, order_elem_of. Qed.

Lemma order_inj i j p : order !! i = Some p → order !! j = Some p → i = j.
Proof. apply NoDup_lookup, order_NoDup. Qed.

Lemma order_to_nat_inj i j p q :
  order !! i = Some p → order !! j = Some q →
  Z.to_nat p = Z.to_nat q → i = j.
Proof.
  intros Hp Hq Heq.
  pose proof (order_range _ _ Hp). pose proof (order_range _ _ Hq).
  assert (p = q) as -> by lia. by eapply order_inj.
Qed.

Lemma order_intensity i j p q :
  (i ≤ j)%nat → order !! i = Some p → order !! j = Some q →
  ∃ vp vq, flat !! Z.to_nat p = Some vp ∧ flat !! Z.to_nat q = Some vq
           ∧ vp ≤ vq.
Proof.
  intros Hij Hp Hq.
  pose proof (order_range _ _ Hp) as Hrp.
  pose proof (order_range _ _ Hq) as Hrq.
  destruct (lookup_lt_is_Some_2 flat (Z.to_nat p)) as [vp Hvp]; [lia|].
  destruct (lookup_lt_is_Some_2 flat (Z.to_nat q)) as [vq Hvq]; [lia|].
  exists vp, vq. split_and!; [done..|].
  destruct Horder as [_ Hsorted].
  apply (Hsorted i j p q); [done..| |]; by rewrite getitem_nonneg by lia.
Qed.

Lemma linked_insert k a i p j q :
  length a = length flat →
  linked order k a → order !! i = Some p → order !! j = Some q →
  (k ≤ j ≤ i)%nat → linked order k (<[Z.to_nat p := q]> a).
Proof.
  intros Hlen Ha Hp Hq Hj i' p' Hi' Hp'.
  destruct (decide (i' = i)) as [->|Hne].
  - assert (p' = p) as -> by congruence.
    exists j, q. split_and!; [lia..|done|].
    apply list_lookup_insert_eq. pose proof (order_range _ _ Hp). lia.
  - destruct (Ha i' p' Hi' Hp') as (j' & q' & ? & ? & ?).
    exists j', q'. split_and!; [lia..|done|].
    rewrite list_lookup_insert_ne; [done|].
    intros Heq. apply Hne. symmetry. by eapply order_to_nat_inj.
Qed.

Lemma fresh_insert u k a i p v :
  fresh order u k a → order !! i = Some p → (k ≤ i)%nat →
  fresh order u k (<[Z.to_nat p := v]> a).
Proof.
  intros Ha Hp Hi i' p' Hi' Hp'.
  rewrite list_lookup_insert_ne; [by eapply Ha|].
  intros Heq. assert (i = i') by by eapply order_to_nat_inj. lia.
Qed.

Lemma linked_visit k a pi :
  length a = length flat →
  linked order (S k) a → order !! k = Some pi →
  linked order k (<[Z.to_nat pi := pi]> a).
Proof.
  intros Hlen Ha Hpi i p Hi Hp.
  destruct (decide (i = k)) as [->|Hne].
  - assert (p = pi) as -> by congruence.
    exists k, pi. split_and!; [lia..|done|].
    apply list_lookup_insert_eq. pose proof (order_range _ _ Hp). lia.
  - destruct (Ha i p ltac:(lia) Hp) as (j & q & ? & ? & ?).
    exists j, q. split_and!; [lia..|done|].
    rewrite list_lookup_insert_ne; [done|].
    intros Heq. apply Hne. by eapply order_to_nat_inj.
Qed.

Lemma fresh_visit u k a pi v :
  fresh order u (S k) a → order !! k = Some pi →
  fresh order u k (<[Z.to_nat pi := v]> a).
Proof.
  intros Ha Hpi i p Hi Hp.
  rewrite list_lookup_insert_ne; [apply (Ha i); [lia|done]|].
  intros Heq. assert (k = i) by by eapply order_to_nat_inj. lia.
Qed.

Lemma linked_getitem k a i p :
  linked order k a → (k ≤ i)%nat → order !! i = Some p →
  ∃ j q, (k ≤ j ≤ i)%nat ∧ order !! j = Some q ∧ getitem a p = Some q.
Proof.
  intros Ha Hi Hp. destruct (Ha i p Hi Hp) as (j & q & ? & ? & ?).
  exists j, q. split_and!; [lia..|done|].
  pose proof (order_range _ _ Hp). by rewrite getitem_nonneg by lia.
Qed.

Lemma linked_setitem k a i p j q a' :
  length a = length flat →
  linked order k a → order !! i = Some p → order !! j = Some q →
  (k ≤ j ≤ i)%nat → setitem a p q = Some a' →
  linked order k a' ∧ length a' = length flat.
Proof.
  intros Hlen Ha Hp Hq Hj Hset.
  pose proof (order_range _ _ Hp).
  rewrite setitem_nonneg in Hset by lia. injection Hset as <-.
  split; [by eapply linked_insert|]. by rewrite length_insert.
Qed.
Lemma fresh_setitem u k a i p v a' :
  length a = length flat →
  fresh order u k a → order !! i = Some p → (k ≤ i)%nat →
  setitem a p v = Some a' → fresh order u k a'.
Proof.
  intros Hlen Ha Hp Hi Hset. pose proof (order_range _ _ Hp).
  rewrite setitem_nonneg in Hset by lia. injection Hset as <-.
  by eapply fresh_insert.
Qed.

(** Every name on a chain of a linked array is a visited pixel, and the
    root of the chain comes no later in the order than any of them. *)
Lemma linked_chain k z i x path r :
  linked order k z → (k ≤ i)%nat → order !! i = Some x → chain z x path r →
  ∃ j, (k ≤ j ≤ i)%nat ∧ order !! j = Some r ∧
       ∀ y, y ∈ path → ∃ iy, (j ≤ iy)%nat ∧ order !! iy = Some y.
Proof.
  intros Hz Hi Hx Hc. revert i Hi Hx.
  induction Hc as [r Hr|x x1 path r Hx1 Hne Hc IH]; intros i Hi Hx.
  - exists i. split_and!; [lia..|done|].
    intros y Hy. by apply elem_of_nil in Hy.
  - destruct (linked_getitem _ _ _ _ Hz Hi Hx) as (j1 & q & Hj1 & Hq & Hget).
    assert (q = x1) as -> by congruence.
    destruct (IH j1 ltac:(lia) Hq) as (j & Hj & Hr & Hpath).
    exists j. split_and!; [lia..|done|].
    intros y Hy. apply elem_of_cons in Hy as [->|Hy].
    + exists i. split; [lia|done].
    + by apply Hpath.
Qed.

Lemma linked_compress k z j r path :
  length z = length flat → linked order k z →
  (k ≤ j)%nat → order !! j = Some r →
  (∀ y, y ∈ path → ∃ iy, (j ≤ iy)%nat ∧ order !! iy = Some y) →
  linked order k (compress z path r).
Proof.
  intros Hlen Hz Hj Hr.
  induction path as [|y path IH]; intros Hpath; simpl; [done|].
  destruct (Hpath y ltac:(by left)) as (iy & Hiy & Hy).
  pose proof (order_range _ _ Hy).
  rewrite setitem_nonneg by (rewrite compress_length; lia). simpl.
  eapply linked_insert; [by rewrite compress_length| |done|done|lia].
  apply IH. intros y' Hy'. apply Hpath. by right.
Qed.

(** *** The construction pass *)

Context (Hsize : Z.of_nat (length flat) + 2 < 2 ^ 32).

Lemma to_uint32_pixel i p : order !! i = Some p → to_uint32 p = p.
Proof.
  intros Hp. pose proof (order_range _ _ Hp).
  unfold to_uint32. apply Z.mod_small. lia.
Qed.

Lemma to_uint32_undefined :
  to_uint32 (Z.of_nat (length flat) + 2) = Z.of_nat (length flat) + 2.
Proof. unfold to_uint32. apply Z.mod_small. lia. Qed.

Lemma merge_node_inv k pi i nei_pi st st' :
  order !! k = Some pi → (k ≤ i)%nat → order !! i = Some nei_pi →
  pass_inv flat order k st → merge_node pi st nei_pi = Some st' →
  pass_inv flat order k st'.
Proof.
  destruct st as [P Z0]. intros Hpi Hi Hnei (Hlp & Hlz & HP & HZ & HF).
  simpl in *. unfold merge_node.
  destruct (find_pixel_parent Z0 nei_pi) as [[z1 r]|] eqn:Hfind; [|done].
  simpl. apply find_pixel_parent_rec_inv in Hfind as (path & Hc & ->).
  destruct (linked_chain _ _ _ _ _ _ HZ Hi Hnei Hc) as (j & Hj & Hr & Hpath).
  assert (linked order k (compress Z0 path r)) as Hz1.
  { eapply linked_compress; [done|done| |done|done]. lia. }
  case_decide as Hne.
  - rewrite (to_uint32_pixel _ _ Hpi).
    destruct (setitem (compress Z0 path r) r pi) as [z2|] eqn:Hz2; [|done].
    simpl.
    destruct (linked_setitem k (compress Z0 path r) j r k pi z2)
      as [Hz2l Hz2len];
      [by rewrite compress_length|done|done|done|lia|done|].
    destruct (linked_getitem _ _ _ _ Hz2l Hi Hnei)
      as (j' & r' & Hj' & Hr' & ->).
    simpl.
    destruct (setitem P r' pi) as [P2|] eqn:HP2; [|done].
    simpl. intros [= <-].
    destruct (linked_setitem k P j' r' k pi P2) as [HP2l HP2len];
      [done|done|done|done|lia|done|].
    split_and!; simpl; [done..|].
    eapply fresh_setitem; [| |exact Hr'| |exact HP2]; [done|done|lia].
  - intros [= <-]. split_and!; simpl; [done| |done|done|done].
    by rewrite compress_length.
Qed.

Lemma filter_defined_visited k P neighbors l :
  fresh order (Z.of_nat (length flat) + 2) k P →
  Forall (λ n, 0 ≤ n < Z.of_nat (length flat)) neighbors →
  filter_defined P (Z.of_nat (length flat) + 2) neighbors = Some l →
  Forall (λ nb, ∃ i, (k ≤ i)%nat ∧ order !! i = Some nb) l.
Proof.
  intros HF Hrange. revert l.
  induction Hrange as [|n neighbors Hn Hrange IH]; intros l Hl; simpl in Hl.
  - injection Hl as <-. constructor.
  - destruct (getitem P n) as [v|] eqn:Hv; [|done]. simpl in Hl.
    destruct (filter_defined P _ neighbors) as [rest|]; [|done].
    simpl in Hl. injection Hl as <-.
    specialize (IH rest eq_refl).
    case_decide as Hdef; [|done]. constructor; [|done].
    destruct (order_position n Hn) as [i Hi]. exists i. split; [|done].
    destruct (decide (k ≤ i)%nat) as [|Hlt]; [done|].
    rewrite getitem_nonneg in Hv by lia.
    rewrite (HF i n ltac:(lia) Hi) in Hv. congruence.
Qed.

Lemma visit_pixel_inv width height connection8 k pi st st' :
  2 ≤ width → order !! k = Some pi → pass_inv flat order (S k) st →
  visit_pixel width height (Z.of_nat (length flat))
              (Z.of_nat (length flat) + 2) connection8 st pi = Some st' →
  pass_inv flat order k st'.
Proof.
  destruct st as [P Z0]. intros Hw Hpi (Hlp & Hlz & HP & HZ & HF).
  simpl in *. unfold visit_pixel.
  pose proof (order_range _ _ Hpi) as Hrange.
  rewrite (to_uint32_pixel _ _ Hpi).
  rewrite !setitem_nonneg by lia. simpl.
  set (neighbors := if connection8 then _ else _).
  assert (Forall (λ n, 0 ≤ n < Z.of_nat (length flat)) neighbors) as Hnb.
  { subst neighbors. destruct connection8;
      [by apply get_8_neighbors_in_range|by apply get_4_neighbors_in_range]. }
  destruct (filter_defined _ _ neighbors) as [l|] eqn:Hl; [|done]. simpl.
  assert (pass_inv flat order k
            (<[Z.to_nat pi:=pi]> P, <[Z.to_nat pi:=pi]> Z0)) as Hinv.
  { split_and!; simpl; rewrite ?length_insert; try done.
    - by apply linked_visit.
    - by apply linked_visit.
    - by apply fresh_visit. }
  apply filter_defined_visited with (k := k) in Hl;
    [|by apply fresh_visit|done].
  intros Hrun. revert Hinv Hrun. apply for_each_invariant.
  intros s x s' Hx Hs Hbody.
  rewrite Forall_forall in Hl. destruct (Hl x Hx) as (i & Hi & Hxi).
  by eapply merge_node_inv.
Qed.

Lemma pass_inv_initial :
  pass_inv flat order (length order)
    (replicate (length flat) (to_uint32 (Z.of_nat (length flat) + 2)),
     replicate (length flat) (to_uint32 (Z.of_nat (length flat) + 2))).
Proof.
  rewrite to_uint32_undefined.
  split_and!; simpl; rewrite ?length_replicate; try done.
  - intros i p Hi Hp. apply lookup_lt_Some in Hp. lia.
  - intros i p Hi Hp. apply lookup_lt_Some in Hp. lia.
  - intros i p Hi Hp. pose proof (order_range _ _ Hp).
    apply lookup_replicate_2. lia.
Qed.

Lemma pass_inv_run width height connection8 pre suf st st' :
  2 ≤ width → order = pre ++ suf → pass_inv flat order (length pre) st →
  for_each (visit_pixel width height (Z.of_nat (length flat))
              (Z.of_nat (length flat) + 2) connection8) st (reverse pre)
  = Some st' →
  pass_inv flat order 0 st'.
Proof.
  intros Hw. revert suf st.
  induction pre as [|x pre IH] using rev_ind; intros suf st Horder' Hst Hrun.
  - simpl in Hrun. by injection Hrun as <-.
  - rewrite reverse_snoc in Hrun. simpl in Hrun.
    destruct (visit_pixel _ _ _ _ _ st x) as [st1|] eqn:Hvisit; [|done].
    simpl in Hrun. rewrite length_app in Hst. simpl in Hst.
    replace (length pre + 1)%nat with (S (length pre)) in Hst by lia.
    assert (order !! length pre = Some x) as Hx.
    { rewrite Horder', <- app_assoc. by apply list_lookup_middle. }
    apply (IH (x :: suf) st1); [by rewrite Horder', <- app_assoc| |done].
    by eapply visit_pixel_inv.
Qed.
End sorted_pixels.

(** The view returned by [find_pixel_parent]: when pixel [2] of a 2 x 2
    image is visited and its neighbour [0] is its own root, line 153
    stores [2] into [zparents[0]] and then into [parents[2]]; [parents[0]]
    keeps its value. *)
Example merge_node_root_neighbor :
  merge_node 2 ([0; 6; 2; 6], [0; 6; 2; 6]) 0
  = Some ([0; 6; 2; 6], [2; 6; 2; 6]).
Proof. reflexivity. Qed.

(** ** Images of a single row *)

Lemma for_each_raises {S A} (body : S → A → option S) (P : S → Prop) x l :
  (∀ s y s', P s → body s y = Some s' → P s') →
  (∀ s, P s → body s x = None) →
  x ∈ l → ∀ s, P s → for_each body s l = None.
Proof.
  intros Hkeep Hx. induction l as [|y l IH]; intros Hin s Hs.
  - by apply elem_of_nil in Hin.
  - simpl. destruct (body s y) as [s1|] eqn:Hy; [|done]. simpl.
    apply elem_of_cons in Hin as [->|Hin].
    + rewrite Hx in Hy; done.
    + apply IH; [done|]. by eapply Hkeep.
Qed.

Lemma filter_defined_raises parents u neighbors n :
  n ∈ neighbors → getitem parents n = None →
  filter_defined parents u neighbors = None.
Proof.
  intros Hin Hn. induction neighbors as [|m neighbors IH].
  - by apply elem_of_nil in Hin.
  - simpl. apply elem_of_cons in Hin as [->|Hin]; [by rewrite Hn|].
    destruct (getitem parents m); [|done]. simpl. by rewrite IH.
Qed.

Lemma merge_node_length pi st nei_pi st' :
  merge_node pi st nei_pi = Some st' →
  length st'.1 = length st.1 ∧ length st'.2 = length st.2.
Proof.
  destruct st as [P Z0]. unfold merge_node.
  destruct (find_pixel_parent Z0 nei_pi) as [[z1 r]|] eqn:Hfind; [|done].
  simpl. apply find_pixel_parent_rec_inv in Hfind as (path & _ & ->).
  case_decide.
  - destruct (setitem _ r _) as [z2|] eqn:Hz2; [|done]. simpl.
    destruct (getitem z2 nei_pi) as [r'|]; [|done]. simpl.
    destruct (setitem P r' _) as [P2|] eqn:HP2; [|done]. simpl.
    intros [= <-]. simpl.
    rewrite (setitem_length _ _ _ _ HP2), (setitem_length _ _ _ _ Hz2).
    by rewrite compress_length.
  - intros [= <-]. simpl. by rewrite compress_length.
Qed.

Lemma visit_pixel_length width height resolution u connection8 st pi st' :
  visit_pixel width height resolution u connection8 st pi = Some st' →
  length st'.1 = length st.1 ∧ length st'.2 = length st.2.
Proof.
  destruct st as [P Z0]. unfold visit_pixel.
  destruct (setitem P pi _) as [P1|] eqn:HP1; [|done]. simpl.
  destruct (setitem Z0 pi _) as [Z1|] eqn:HZ1; [|done]. simpl.
  destruct (filter_defined P1 u _) as [l|]; [|done]. simpl.
  rewrite <- (setitem_length _ _ _ _ HP1), <- (setitem_length _ _ _ _ HZ1).
  apply (for_each_invariant (merge_node pi)
           (λ s, length s.1 = length P1 ∧ length s.2 = length Z1) l);
    [|done].
  intros s x s' _ [Hs1 Hs2] Hm. apply merge_node_length in Hm as [-> ->].
  done.
Qed.

Lemma visit_pixel_single_row_raises height u connection8 st :
  visit_pixel 1 height (Z.of_nat (length st.1)) u connection8 st
              (Z.of_nat (length st.1) - 1) = None.
Proof.
  destruct st as [P Z0]. simpl. unfold visit_pixel.
  destruct (setitem P _ _) as [P1|] eqn:HP1; [|done]. simpl.
  destruct (setitem Z0 _ _) as [Z1|] eqn:HZ1; [|done]. simpl.
  rewrite (filter_defined_raises P1 u _ (Z.of_nat (length P))); [done| |].
  - set (pi := Z.of_nat (length P) - 1).
    replace (Z.of_nat (length P)) with (pi + 1) by (subst pi; lia).
    destruct connection8;
      [apply get_8_neighbors_single_row|apply get_4_neighbors_single_row].
  - rewrite <- (setitem_length _ _ _ _ HP1).
    rewrite getitem_nonneg by lia. apply lookup_ge_None. lia.
Qed.

(** An image of one row, whatever its intensities, makes the pass raise
    [IndexError]: the last pixel has its right neighbour past the end. *)
Lemma build_single_row_raises sorted_pixels image connection8 height :
  shape image = [1%nat; height] → data image ≠ [] →
  is_argsort (data image) sorted_pixels →
  build sorted_pixels image connection8 = None.
Proof.
  intros Hshape Hne Hsorted. unfold build. rewrite Hshape. simpl.
  set (n := length (data image)).
  eapply (for_each_raises _
            (λ s, length s.1 = n) (Z.of_nat n - 1)).
  - intros s y s' Hs Hv. apply visit_pixel_length in Hv as [-> _]. done.
  - intros s Hs. rewrite <- Hs. apply visit_pixel_single_row_raises.
  - apply elem_of_reverse, (order_elem_of (data image)); [done|].
    destruct (data image); [done|]. subst n. simpl length. lia.
  - simpl. apply length_replicate.
Qed.

(** ** The forest built by the pass *)

Lemma is_argsort_nil sorted_pixels :
  is_argsort [] sorted_pixels → sorted_pixels = [].
Proof. intros [Hperm _]. by apply Permutation_nil_r in Hperm. Qed.

Lemma build_pass_inv sorted_pixels image connection8 P Z0 :
  rectangular image →
  Z.of_nat (length (data image)) + 2 < 2 ^ 32 →
  is_argsort (data image) sorted_pixels →
  build sorted_pixels image connection8 = Some (P, Z0) →
  pass_inv (data image) sorted_pixels 0 (P, Z0).
Proof.
  intros Hrect Hsize Hsorted Hbuild.
  destruct (decide (data image = [])) as [Hnil|Hne].
  - rewrite Hnil in Hsorted. apply is_argsort_nil in Hsorted as ->.
    unfold build in Hbuild.
    destruct (shape image !! 0%nat); [|done].
    destruct (shape image !! 1%nat); [|done].
    simpl in Hbuild. injection Hbuild as <- <-.
    pose proof (pass_inv_initial (data image) []) as Hinit.
    rewrite Hnil in *. apply Hinit; [|done].
    split; [done|]. intros i j p q vp vq _ Hp. by rewrite lookup_nil in Hp.
  - unfold rectangular in Hrect.
    destruct (shape image) as [|w [|h [|]]] eqn:Hshape; try done.
    destruct w as [|[|w]].
    + destruct (data image); [done|simpl in Hrect; lia].
    + by rewrite (build_single_row_raises _ _ _ _ Hshape Hne Hsorted)
        in Hbuild.
    + unfold build in Hbuild. rewrite Hshape in Hbuild. simpl in Hbuild.
      eapply (pass_inv_run (data image) sorted_pixels Hsorted Hsize
                _ _ _ sorted_pixels []); [|by rewrite app_nil_r| |done].
      * lia.
      * by apply pass_inv_initial.
Qed.

Section canonization.
Context (flat order : list Z).
Context (Horder : is_argsort flat order).

Lemma canonize_step_linked i pi P P' :
  length P = length flat → linked order 0 P → order !! i = Some pi →
  canonize_step flat P pi = Some P' →
  linked order 0 P' ∧ length P' = length flat.
Proof.
  intros Hlen HP Hpi. unfold canonize_step.
  destruct (linked_getitem flat order Horder 0 P i pi HP ltac:(lia) Hpi)
    as (j & q & Hj & Hq & ->).
  simpl. destruct (getitem flat q) as [vq|]; [|done]. simpl.
  destruct (linked_getitem flat order Horder 0 P j q HP ltac:(lia) Hq)
    as (j' & t & Hj' & Ht & ->).
  simpl. destruct (getitem flat t) as [vt|]; [|done]. simpl.
  case_decide; [|by intros [= <-]].
  intros Hset.
  eapply (linked_setitem flat order Horder 0 P i pi j' t);
    [done..|lia|done].
Qed.

Lemma canonize_linked P P' :
  length P = length flat → linked order 0 P →
  canonize flat P order = Some P' →
  linked order 0 P' ∧ length P' = length flat.
Proof.
  intros Hlen HP. unfold canonize.
  apply (for_each_invariant (canonize_step flat)
           (λ a, linked order 0 a ∧ length a = length flat) order);
    [|done].
  intros a x a' Hx [Ha Hla] Hstep.
  apply list_elem_of_lookup_1 in Hx as [i Hi].
  by eapply canonize_step_linked.
Qed.

(** In a linked array no parent is brighter than its pixel, and every
    entry is a pixel of the image. *)
Lemma linked_parent_level P (p : nat) :
  linked order 0 P → (p < length flat)%nat →
  ∃ q vq vp, P !! p = Some q ∧ 0 ≤ q < Z.of_nat (length flat) ∧
             getitem flat q = Some vq ∧ flat !! p = Some vp ∧ vq ≤ vp.
Proof.
  intros HP Hp.
  destruct (order_position flat order Horder (Z.of_nat p) ltac:(lia))
    as [i Hi].
  destruct (HP i _ ltac:(lia) Hi) as (j & q & Hj & Hq & HPp).
  destruct (order_intensity flat order Horder j i _ _ ltac:(lia) Hq Hi)
    as (vq & vp & Hvq & Hvp & Hle).
  rewrite Nat2Z.id in HPp, Hvp.
  pose proof (order_range flat order Horder _ _ Hq) as Hrq.
  exists q, vq, vp. split_and!; [done|lia|lia| |done|done].
  by rewrite getitem_nonneg by lia.
Qed.
End canonization.

Lemma maxtree_berger_from_inv sorted_pixels image connection8 parents order :
  rectangular image →
  Z.of_nat (length (data image)) + 2 < 2 ^ 32 →
  is_argsort (data image) sorted_pixels →
  maxtree_berger_from sorted_pixels image connection8
  = Some (parents, order) →
  order = sorted_pixels ∧ shape parents = shape image ∧
  ∃ P Z0,
    build sorted_pixels image connection8 = Some (P, Z0) ∧
    pass_inv (data image) sorted_pixels 0 (P, Z0) ∧
    canonize (data image) P sorted_pixels = Some (data parents) ∧
    linked sorted_pixels 0 (data parents) ∧
    length (data parents) = length (data image).
Proof.
  intros Hrect Hsize Hsorted. unfold maxtree_berger_from.
  destruct (build sorted_pixels image connection8) as [[P Z0]|] eqn:Hbuild;
    [|done].
  simpl.
  destruct (canonize (data image) P sorted_pixels) as [P'|] eqn:Hcanon;
    [|done].
  simpl. intros [= <- <-]. split_and!; [done..|].
  exists P, Z0.
  pose proof (build_pass_inv _ _ _ _ _ Hrect Hsize Hsorted Hbuild) as Hinv.
  destruct Hinv as (Hlp & Hlz & HP & HZ & HF). simpl in *.
  destruct (canonize_linked _ _ Hsorted P P' Hlp HP Hcanon) as [HP' Hlen'].
  split_and!; try done.
Qed.

(** C1.  In the parent array that [maxtree_berger] returns, whichever the
    connectivity and whichever order the sort gave to equal intensities,
    every pixel [p] has a parent that is a pixel of the image and is not
    brighter than [p]: [intensity[parent[p]] <= intensity[p]]. *)
Theorem parent_not_brighter sorted_pixels image connection8 parents order :
  rectangular image →
  Z.of_nat (length (data image)) + 2 < 2 ^ 32 →
  is_argsort (data image) sorted_pixels →
  maxtree_berger_from sorted_pixels image connection8
  = Some (parents, order) →
  ∀ p : nat, (p < length (data image))%nat →
    ∃ q vq vp,
      data parents !! p = Some q ∧
      getitem (data image) q = Some vq ∧
      data image !! p = Some vp ∧
      vq ≤ vp.
Proof.
  intros Hrect Hsize Hsorted Hrun p Hp.
  destruct (maxtree_berger_from_inv _ _ _ _ _ Hrect Hsize Hsorted Hrun)
    as (_ & _ & P & Z0 & _ & _ & _ & Hlinked & _).
  destruct (linked_parent_level _ _ Hsorted _ p Hlinked Hp)
    as (q & vq & vp & ? & ? & ? & ? & ?).
  by exists q, vq, vp.
Qed.

(** ** The stable sort is a sort *)

#[global] Instance pixel_le_trans : Transitive pixel_le.
Proof. intros [a b] [c d] [e f]. unfold pixel_le. simpl. lia. Qed.

#[global] Instance pixel_le_total : Total pixel_le.
Proof. intros [a b] [c d]. unfold pixel_le. simpl. lia. Qed.

Lemma StronglySorted_pixel_le_lookup (l : list (Z * Z)) (i j : nat) x y :
  StronglySorted pixel_le l → (i ≤ j)%nat →
  l !! i = Some x → l !! j = Some y → x.1 ≤ y.1.
Proof.
  intros Hl. revert i j.
  induction Hl as [|z l Hl IH Hz]; intros i j Hij Hx Hy.
  - by rewrite lookup_nil in Hx.
  - destruct i as [|i], j as [|j]; simpl in Hx, Hy; try lia.
    + simplify_eq. lia.
    + simplify_eq. rewrite Forall_forall in Hz.
      apply list_elem_of_lookup_2 in Hy. specialize (Hz _ Hy).
      unfold pixel_le in Hz. lia.
    + apply (IH i j); [lia|done|done].
Qed.

Lemma elem_of_zip_indices a v p :
  (v, p) ∈ zip a (indices (length a)) → getitem a p = Some v.
Proof.
  intros Hin. apply list_elem_of_lookup_1 in Hin as [k Hk].
  apply lookup_zip_with_Some in Hk as (x & y & Heq & Hx & Hy).
  injection Heq as -> ->. unfold indices in Hy.
  rewrite list_lookup_fmap in Hy.
  destruct (seq 0 (length a) !! k) as [k'|] eqn:Hk'; [|done].
  apply lookup_seq in Hk' as [-> _]. simpl in Hy. injection Hy as <-.
  by rewrite getitem_of_nat.
Qed.

Lemma argsort_is_argsort a : is_argsort a (argsort a).
Proof.
  unfold argsort. set (pairs := zip a (indices (length a))). split.
  - rewrite merge_sort_Permutation. subst pairs.
    rewrite snd_zip; [done|]. rewrite length_indices. lia.
  - intros i j p q vp vq Hij Hp Hq Hvp Hvq.
    rewrite list_lookup_fmap in Hp, Hq.
    destruct (merge_sort pixel_le pairs !! i) as [[v1 p1]|] eqn:H1; [|done].
    destruct (merge_sort pixel_le pairs !! j) as [[v2 p2]|] eqn:H2; [|done].
    simpl in Hp, Hq. simplify_eq.
    assert (∀ k v x, merge_sort pixel_le pairs !! k = Some (v, x) →
                     getitem a x = Some v) as Hval.
    { intros k v x Hk. apply list_elem_of_lookup_2 in Hk.
      rewrite merge_sort_Permutation in Hk. by apply elem_of_zip_indices. }
    rewrite (Hval _ _ _ H1) in Hvp. rewrite (Hval _ _ _ H2) in Hvq.
    simplify_eq.
    apply (StronglySorted_pixel_le_lookup (merge_sort pixel_le pairs) i j
             (vp, p) (vq, q)); [|done..].
    apply StronglySorted_merge_sort; apply _.
Qed.

Lemma parent_not_brighter_witness :
  rectangular image_2x2 ∧
  Z.of_nat (length (data image_2x2)) + 2 < 2 ^ 32 ∧
  is_argsort (data image_2x2) [1; 3; 2; 0] ∧
  maxtree_berger_from [1; 3; 2; 0] image_2x2 true
  = Some (NdArray [2%nat; 2%nat] [0; 1; 3; 3], [1; 3; 2; 0]) ∧
  ∀ p : nat, (p < length (data image_2x2))%nat →
    ∃ q vq vp,
      [0; 1; 3; 3] !! p = Some q ∧
      getitem (data image_2x2) q = Some vq ∧
      data image_2x2 !! p = Some vp ∧
      vq ≤ vp.
Proof.
  assert (rectangular image_2x2) as Hrect by reflexivity.
  assert (Z.of_nat (length (data image_2x2)) + 2 < 2 ^ 32) as Hsize
    by (vm_compute; reflexivity).
  pose proof (argsort_is_argsort (data image_2x2)) as Hsorted.
  change (argsort (data image_2x2)) with [1; 3; 2; 0] in Hsorted.
  split_and!; [done|done|done|reflexivity|].
  exact (parent_not_brighter [1; 3; 2; 0] image_2x2 true
           (NdArray [2%nat; 2%nat] [0; 1; 3; 3]) [1; 3; 2; 0]
           Hrect Hsize Hsorted eq_refl).
Defined.

(** ** No sentinel is left *)

Lemma linked_Forall_pixel flat order P :
  is_argsort flat order → linked order 0 P → length P = length flat →
  Forall (λ v, 0 ≤ v < Z.of_nat (length flat)
               ∧ v ≠ Z.of_nat (length flat) + 2) P.
Proof.
  intros Horder HP Hlen. apply Forall_lookup. intros k v Hk.
  pose proof (lookup_lt_Some _ _ _ Hk) as Hlt.
  destruct (order_position flat order Horder (Z.of_nat k) ltac:(lia))
    as [i Hi].
  destruct (HP i _ ltac:(lia) Hi) as (j & q & _ & Hq & HPk).
  rewrite Nat2Z.id in HPk. simplify_eq.
  pose proof (order_range flat order Horder _ _ Hq). lia.
Qed.

(** C7.  When the construction pass of [maxtree_berger] completes, every
    entry of [parents] is a pixel index in [0 .. resolution - 1], none is
    the [undefined_node] sentinel [resolution + 2]; and so it is in the
    parent array that the function returns. *)
Theorem no_leaked_sentinel sorted_pixels image connection8 parents order :
  rectangular image →
  Z.of_nat (length (data image)) + 2 < 2 ^ 32 →
  is_argsort (data image) sorted_pixels →
  maxtree_berger_from sorted_pixels image connection8
  = Some (parents, order) →
  let resolution := Z.of_nat (length (data image)) in
  let undefined_node := resolution + 2 in
  (∃ P Z0,
     build sorted_pixels image connection8 = Some (P, Z0) ∧
     length P = length (data image) ∧
     Forall (λ v, 0 ≤ v < resolution ∧ v ≠ undefined_node) P) ∧
  length (data parents) = length (data image) ∧
  Forall (λ v, 0 ≤ v < resolution ∧ v ≠ undefined_node) (data parents).
Proof.
  intros Hrect Hsize Hsorted Hrun. simpl.
  destruct (maxtree_berger_from_inv _ _ _ _ _ Hrect Hsize Hsorted Hrun)
    as (_ & _ & P & Z0 & Hbuild & Hinv & _ & Hlinked & Hlen).
  destruct Hinv as (Hlp & _ & HP & _). simpl in *.
  split_and!; [|done|by eapply linked_Forall_pixel].
  exists P, Z0. split_and!; [done..|by eapply linked_Forall_pixel].
Qed.

Lemma no_leaked_sentinel_witness :
  rectangular image_2x2 ∧
  Z.of_nat (length (data image_2x2)) + 2 < 2 ^ 32 ∧
  is_argsort (data image_2x2) [1; 3; 2; 0] ∧
  maxtree_berger_from [1; 3; 2; 0] image_2x2 true
  = Some (NdArray [2%nat; 2%nat] [0; 1; 3; 3], [1; 3; 2; 0]) ∧
  (∃ P Z0,
     build [1; 3; 2; 0] image_2x2 true = Some (P, Z0) ∧
     length P = 4%nat ∧
     Forall (λ v, 0 ≤ v < 4 ∧ v ≠ 6) P) ∧
  length [0; 1; 3; 3] = 4%nat ∧
  Forall (λ v, 0 ≤ v < 4 ∧ v ≠ 6) [0; 1; 3; 3].
Proof.
  assert (rectangular image_2x2) as Hrect by reflexivity.
  assert (Z.of_nat (length (data image_2x2)) + 2 < 2 ^ 32) as Hsize
    by (vm_compute; reflexivity).
  pose proof (argsort_is_argsort (data image_2x2)) as Hsorted.
  change (argsort (data image_2x2)) with [1; 3; 2; 0] in Hsorted.
  split_and!; [done|done|done|reflexivity|..];
    apply (no_leaked_sentinel [1; 3; 2; 0] image_2x2 true
             (NdArray [2%nat; 2%nat] [0; 1; 3; 3]) [1; 3; 2; 0]
             Hrect Hsize Hsorted eq_refl).
Defined.

(** ** Roots *)

Lemma linked_reach_level flat order P x r :
  is_argsort flat order → linked order 0 P →
  rtc (parent_step P) x r → 0 ≤ x < Z.of_nat (length flat) →
  0 ≤ r < Z.of_nat (length flat) ∧
  ∃ vx vr, getitem flat x = Some vx ∧ getitem flat r = Some vr ∧ vr ≤ vx.
Proof.
  intros Horder HP Hreach.
  induction Hreach as [x|x y r Hxy Hreach IH]; intros Hx.
  - split; [done|].
    destruct (lookup_lt_is_Some_2 flat (Z.to_nat x)) as [vx Hvx]; [lia|].
    exists vx, vx. rewrite getitem_nonneg by lia. done.
  - destruct (linked_parent_level flat order Horder P (Z.to_nat x) HP
                ltac:(lia)) as (q & vq & vx & HPx & Hq & Hvq & Hvx & Hle).
    unfold parent_step in Hxy. rewrite getitem_nonneg in Hxy by lia.
    assert (q = y) as -> by congruence.
    destruct (IH Hq) as (Hr & vy & vr & Hvy & Hvr & Hle').
    split; [done|]. exists vx, vr. split_and!; [|done|].
    + by rewrite getitem_nonneg by lia.
    + assert (vy = vq) by congruence. lia.
Qed.

(** In the parent array that [maxtree_berger] returns for a non-empty
    image some pixel is its own parent, and a pixel that is its own parent
    is not brighter than any pixel from which it is reached by following
    parent pointers. *)
Lemma roots_are_tree_minima sorted_pixels image connection8 parents order :
  rectangular image → data image ≠ [] →
  Z.of_nat (length (data image)) + 2 < 2 ^ 32 →
  is_argsort (data image) sorted_pixels →
  maxtree_berger_from sorted_pixels image connection8
  = Some (parents, order) →
  (∃ r, 0 ≤ r < Z.of_nat (length (data image))
        ∧ getitem (data parents) r = Some r) ∧
  ∀ r x, getitem (data parents) r = Some r →
         0 ≤ x < Z.of_nat (length (data image)) →
         rtc (parent_step (data parents)) x r →
         ∃ vr vx, getitem (data image) r = Some vr
                  ∧ getitem (data image) x = Some vx ∧ vr ≤ vx.
Proof.
  intros Hrect Hne Hsize Hsorted Hrun.
  destruct (maxtree_berger_from_inv _ _ _ _ _ Hrect Hsize Hsorted Hrun)
    as (_ & _ & P & Z0 & _ & _ & _ & Hlinked & Hlen).
  split.
  - destruct (lookup_lt_is_Some_2 sorted_pixels 0) as [p0 Hp0].
    { rewrite (order_length _ _ Hsorted). destruct (data image); [done|].
      simpl. lia. }
    destruct (linked_getitem _ _ Hsorted 0 _ 0 p0 Hlinked ltac:(lia) Hp0)
      as (j & q & Hj & Hq & Hget).
    assert (j = 0%nat) as -> by lia. assert (q = p0) as -> by congruence.
    exists p0. split; [|done]. by eapply order_range.
  - intros r x Hr Hx Hreach.
    destruct (linked_reach_level _ _ _ _ _ Hsorted Hlinked Hreach Hx)
      as (_ & vx & vr & ? & ? & ?).
    by exists vr, vx.
Qed.

Lemma StronglySorted_lookup_2 {A} (R : relation A) (l : list A) :
  (∀ (i j : nat) x y, (i < j)%nat → l !! i = Some x → l !! j = Some y →
                      R x y) →
  StronglySorted R l.
Proof.
  induction l as [|x l IH]; intros H; constructor.
  - apply IH. intros i j y z Hij Hy Hz. by apply (H (S i) (S j)); [lia|..].
  - apply Forall_forall. intros y Hy.
    apply list_elem_of_lookup_1 in Hy as [j Hj].
    by apply (H 0%nat (S j)); [lia|..].
Qed.

(** When the intensities are distinct, [argsort] has one possible
    result. *)
Lemma is_argsort_unique a s s' :
  NoDup a → is_argsort a s → is_argsort a s' → s = s'.
Proof.
  intros Hnd [Hperm Hsort] [Hperm' Hsort'].
  set (R := λ p q : Z, ∃ vp vq, getitem a p = Some vp ∧
                                getitem a q = Some vq ∧ vp ≤ vq).
  assert (∀ t, t ≡ₚ indices (length a) →
               (∀ (i j : nat) p q vp vq, (i ≤ j)%nat →
                  t !! i = Some p → t !! j = Some q →
                  getitem a p = Some vp → getitem a q = Some vq → vp ≤ vq) →
               StronglySorted R t) as Hsorted.
  { intros t Ht Hs. apply StronglySorted_lookup_2.
    intros i j p q Hij Hp Hq.
    assert (∀ x, x ∈ t → is_Some (getitem a x)) as Hdef.
    { intros x Hx. rewrite Ht in Hx. apply elem_of_indices in Hx.
      rewrite getitem_nonneg by lia. apply lookup_lt_is_Some. lia. }
    destruct (Hdef p) as [vp Hvp]; [by eapply list_elem_of_lookup_2|].
    destruct (Hdef q) as [vq Hvq]; [by eapply list_elem_of_lookup_2|].
    exists vp, vq. split_and!; [done|done|].
    by apply (Hs i j p q); [lia|..]. }
  apply (StronglySorted_unique_strong R).
  - intros p q Hp Hq (vp & vq & Hvp & Hvq & Hle) (vq' & vp' & Hvq' & Hvp' & Hle').
    rewrite Hperm in Hp. rewrite Hperm' in Hq.
    apply elem_of_indices in Hp, Hq.
    assert (vp = vq) as -> by (simplify_eq; lia).
    rewrite getitem_nonneg in Hvp, Hvq by lia.
    pose proof (NoDup_lookup _ _ _ _ Hnd Hvp Hvq). lia.
  - by apply Hsorted.
  - by apply Hsorted.
  - by rewrite Hperm, Hperm'.
Qed.

Lemma is_argsort_2x2_distinct sorted_pixels :
  is_argsort (data image_2x2_distinct) sorted_pixels →
  sorted_pixels = [3; 1; 2; 0].
Proof.
  intros Hsorted.
  assert (NoDup (data image_2x2_distinct)) as Hnd.
  { apply (bool_decide_unpack _). by vm_compute. }
  exact (is_argsort_unique _ _ _ Hnd Hsorted (argsort_is_argsort _)).
Qed.

(** C8.  On the 2 x 2 image [[5, 3], [4, 2]] with 8-connectivity,
    whatever [argsort] returns, [maxtree_berger] returns the parents
    [[0, 1], [1, 3]]: pixel [0], of intensity [5], is its own parent,
    although pixel [3], of intensity [2], is one of its neighbours for
    [get_8_neighbors]; and no parent pointer leads from [0] or to [0]. *)
Theorem maxtree_berger_root_not_region_minimum sorted_pixels :
  is_argsort (data image_2x2_distinct) sorted_pixels →
  maxtree_berger_from sorted_pixels image_2x2_distinct true
  = Some (NdArray [2%nat; 2%nat] [0; 1; 1; 3], [3; 1; 2; 0]) ∧
  getitem [0; 1; 1; 3] 0 = Some 0 ∧
  (∀ x, getitem [0; 1; 1; 3] x = Some 0 → x = 0 ∨ x = -4) ∧
  3 ∈ get_8_neighbors 2 2 4 0 (0 `mod` 2) ∧
  getitem (data image_2x2_distinct) 0 = Some 5 ∧
  getitem (data image_2x2_distinct) 3 = Some 2.
Proof.
  intros ->%is_argsort_2x2_distinct.
  split_and!; [reflexivity|reflexivity| |by vm_compute; set_solver|
               reflexivity|reflexivity].
  intros x Hx. unfold getitem, norm_index in Hx. simpl in Hx.
  repeat case_decide; simpl in Hx; [| |done].
  - assert (x = 0 ∨ x = 1 ∨ x = 2 ∨ x = 3) as [-> | [-> | [-> | ->]]]
      by lia;
      simpl in Hx; by (left + discriminate Hx).
  - assert (x = -4 ∨ x = -3 ∨ x = -2 ∨ x = -1) as [-> | [-> | [-> | ->]]]
      by lia;
      simpl in Hx; by (right + discriminate Hx).
Qed.

Lemma maxtree_berger_root_not_region_minimum_witness :
  is_argsort (data image_2x2_distinct) (argsort (data image_2x2_distinct)) ∧
  maxtree_berger_from (argsort (data image_2x2_distinct))
                      image_2x2_distinct true
  = Some (NdArray [2%nat; 2%nat] [0; 1; 1; 3], [3; 1; 2; 0]).
Proof.
  split; [apply argsort_is_argsort|].
  exact (proj1 (maxtree_berger_root_not_region_minimum
                  (argsort (data image_2x2_distinct))
                  (argsort_is_argsort (data image_2x2_distinct)))).
Defined.

(** ** [canonize] is idempotent on the forest of the pass *)

Lemma getitem_setitem_ne a i v a' j :
  0 ≤ i < Z.of_nat (length a) → 0 ≤ j < Z.of_nat (length a) → j ≠ i →
  setitem a i v = Some a' → getitem a' j = getitem a j.
Proof.
  intros Hi Hj Hne Hset. rewrite (getitem_setitem _ _ _ _ _ Hset).
  rewrite !norm_index_nonneg by done.
  rewrite decide_False; [done|]. intros [= Heq]. lia.
Qed.

Section idempotence.
Context (flat order : list Z).
Context (Horder : is_argsort flat order).

Lemma settled_ext P P' q :
  getitem P' q = getitem P q → settled flat P q → settled flat P' q.
Proof. intros Heq Hq t vq vt Ht. rewrite Heq in Ht. by apply Hq. Qed.

Lemma canonize_step_canon_inv m pi P P' :
  canon_inv flat order m P → order !! m = Some pi →
  canonize_step flat P pi = Some P' → canon_inv flat order (S m) P'.
Proof.
  intros (Hlen & HP & Hsettled) Hpi Hstep.
  destruct (canonize_step_linked flat order Horder m pi P P' Hlen HP Hpi Hstep)
    as [HP' Hlen'].
  split_and!; [done..|].
  pose proof (order_range _ _ Horder _ _ Hpi) as Hrpi.
  unfold canonize_step in Hstep.
  destruct (linked_getitem flat order Horder 0 P m pi HP ltac:(lia) Hpi)
    as (j & q & Hj & Hq & Hroot).
  rewrite Hroot in Hstep. simpl in Hstep.
  destruct (getitem flat q) as [vq|] eqn:Hvq; [|done]. simpl in Hstep.
  destruct (linked_getitem flat order Horder 0 P j q HP ltac:(lia) Hq)
    as (j' & t & Hj' & Ht & Hproot).
  rewrite Hproot in Hstep. simpl in Hstep.
  destruct (getitem flat t) as [vt|] eqn:Hvt; [|done]. simpl in Hstep.
  pose proof (order_range _ _ Horder _ _ Hq) as Hrq.
  pose proof (order_range _ _ Horder _ _ Ht) as Hrt.
  case_decide as Hlevel.
  - (* the parent of [pi] becomes [t] *)
    intros i p q' Hi Hp Hq'.
    pose proof (order_range _ _ Horder _ _ Hp) as Hrp.
    destruct (decide (i = m)) as [->|Him].
    + assert (p = pi) as -> by congruence.
      rewrite (getitem_setitem_eq _ _ _ _ Hstep) in Hq'.
      injection Hq' as <-.
      destruct (decide (j' = m)) as [->|Hj'm].
      * assert (t = pi) as -> by congruence.
        intros t0 _ _ Ht0 _ _ _.
        rewrite (getitem_setitem_eq _ _ _ _ Hstep) in Ht0. congruence.
      * assert (t ≠ pi) as Htpi.
        { intros ->. apply Hj'm. by eapply order_inj. }
        apply (settled_ext P);
          [eapply getitem_setitem_ne; [| | |done]; lia|].
        destruct (decide (j = m)) as [->|Hjm].
        -- assert (q = pi) as -> by congruence. congruence.
        -- by apply (Hsettled j q t ltac:(lia) Hq).
    + assert (p ≠ pi) as Hppi.
      { intros ->. apply Him. by eapply order_inj. }
      rewrite (getitem_setitem_ne P pi t P' p) in Hq' by (done || lia).
      destruct (linked_getitem flat order Horder 0 P i p HP ltac:(lia) Hp)
        as (jq & q0 & Hjq & Hq0 & Hget0).
      assert (q0 = q') as -> by congruence.
      pose proof (order_range _ _ Horder _ _ Hq0) as Hrq'.
      assert (q' ≠ pi) as Hq'pi.
      { intros ->. assert (jq = m) by by eapply order_inj. lia. }
      apply (settled_ext P);
        [eapply getitem_setitem_ne; [| | |done]; lia|].
      by apply (Hsettled i p q' ltac:(lia) Hp).
  - (* nothing changes *)
    injection Hstep as <-.
    intros i p q' Hi Hp Hq'.
    destruct (decide (i = m)) as [->|Him].
    + assert (p = pi) as -> by congruence.
      assert (q' = q) as -> by congruence.
      intros t0 vq0 vt0 Ht0 Hvq0 Hvt0 Heq. congruence.
    + by apply (Hsettled i p q' ltac:(lia) Hp).
Qed.

Lemma canonize_canon_inv pre suf P P' :
  order = pre ++ suf → canon_inv flat order (length pre) P →
  for_each (canonize_step flat) P suf = Some P' →
  canon_inv flat order (length order) P'.
Proof.
  revert pre P. induction suf as [|x suf IH]; intros pre P Horder' HP Hrun.
  - simpl in Hrun. injection Hrun as <-.
    replace (length order) with (length pre); [done|].
    by rewrite Horder', app_nil_r.
  - simpl in Hrun.
    destruct (canonize_step flat P x) as [P1|] eqn:Hstep; [|done].
    simpl in Hrun.
    apply (IH (pre ++ [x]) P1); [by rewrite <- app_assoc| |done].
    rewrite length_app. simpl.
    replace (length pre + 1)%nat with (S (length pre)) by lia.
    eapply canonize_step_canon_inv; [done| |done].
    rewrite Horder'. by apply list_lookup_middle.
Qed.

Lemma canonize_step_settled P pi :
  canon_inv flat order (length order) P → pi ∈ order →
  canonize_step flat P pi = Some P.
Proof.
  intros (Hlen & HP & Hsettled) Hpi.
  apply list_elem_of_lookup_1 in Hpi as [i Hi].
  pose proof (lookup_lt_Some _ _ _ Hi) as Hlt.
  pose proof (order_range _ _ Horder _ _ Hi) as Hrpi.
  unfold canonize_step.
  destruct (linked_getitem flat order Horder 0 P i pi HP ltac:(lia) Hi)
    as (j & q & Hj & Hq & Hroot).
  rewrite Hroot. simpl.
  destruct (linked_getitem flat order Horder 0 P j q HP ltac:(lia) Hq)
    as (j' & t & Hj' & Ht & Hproot).
  destruct (order_intensity flat order Horder j' j t q ltac:(lia) Ht Hq)
    as (vt & vq & Hvt & Hvq & _).
  pose proof (order_range _ _ Horder _ _ Hq) as Hrq.
  pose proof (order_range _ _ Horder _ _ Ht) as Hrt.
  rewrite <- getitem_nonneg in Hvt, Hvq by lia.
  rewrite Hvq. simpl. rewrite Hproot. simpl. rewrite Hvt. simpl.
  case_decide as Hlevel; [|done].
  assert (t = q) as ->.
  { by apply (Hsettled i pi q Hlt Hi Hroot t vq vt). }
  rewrite setitem_nonneg by lia. f_equal.
  apply list_insert_id. by rewrite <- getitem_nonneg by lia.
Qed.

Lemma canonize_settled P l :
  canon_inv flat order (length order) P → l ⊆ order →
  for_each (canonize_step flat) P l = Some P.
Proof.
  intros HP. induction l as [|x l IH]; intros Hl; simpl; [done|].
  rewrite canonize_step_settled; [|done|apply Hl; by left].
  simpl. apply IH. intros y Hy. apply Hl. by right.
Qed.

Lemma canonize_twice P P1 :
  length P = length flat → linked order 0 P →
  canonize flat P order = Some P1 → canonize flat P1 order = Some P1.
Proof.
  intros Hlen HP Hrun. unfold canonize in *.
  apply canonize_settled; [|done].
  apply (canonize_canon_inv [] order P P1); [done| |done].
  split_and!; [done..|]. intros i p q Hi. simpl in Hi. lia.
Qed.
End idempotence.

(** C6.  On the parent array that the construction pass produces, running
    [canonize] in the ascending order a second time returns the array of
    the first run, unchanged. *)
Theorem canonize_idempotent sorted_pixels image connection8 P Z0 P1 :
  rectangular image →
  Z.of_nat (length (data image)) + 2 < 2 ^ 32 →
  is_argsort (data image) sorted_pixels →
  build sorted_pixels image connection8 = Some (P, Z0) →
  canonize (data image) P sorted_pixels = Some P1 →
  canonize (data image) P1 sorted_pixels = Some P1.
Proof.
  intros Hrect Hsize Hsorted Hbuild Hcanon.
  destruct (build_pass_inv _ _ _ _ _ Hrect Hsize Hsorted Hbuild)
    as (Hlp & _ & HP & _).
  simpl in *. by eapply canonize_twice.
Qed.

Lemma canonize_idempotent_witness :
  rectangular image_3x2 ∧
  Z.of_nat (length (data image_3x2)) + 2 < 2 ^ 32 ∧
  is_argsort (data image_3x2) [0; 2; 4; 1; 5; 3] ∧
  build [0; 2; 4; 1; 5; 3] image_3x2 true
  = Some ([0; 1; 0; 3; 2; 5], [0; 4; 0; 0; 2; 4]) ∧
  canonize (data image_3x2) [0; 1; 0; 3; 2; 5] [0; 2; 4; 1; 5; 3]
  = Some [0; 1; 0; 3; 0; 5] ∧
  canonize (data image_3x2) [0; 1; 0; 3; 0; 5] [0; 2; 4; 1; 5; 3]
  = Some [0; 1; 0; 3; 0; 5].
Proof.
  assert (rectangular image_3x2) as Hrect by reflexivity.
  assert (Z.of_nat (length (data image_3x2)) + 2 < 2 ^ 32) as Hsize
    by (vm_compute; reflexivity).
  pose proof (argsort_is_argsort (data image_3x2)) as Hsorted.
  change (argsort (data image_3x2)) with [0; 2; 4; 1; 5; 3] in Hsorted.
  split_and!; [done|done|done|reflexivity|reflexivity|].
  exact (canonize_idempotent [0; 2; 4; 1; 5; 3] image_3x2 true
           [0; 1; 0; 3; 2; 5] [0; 4; 0; 0; 2; 4] [0; 1; 0; 3; 0; 5]
           Hrect Hsize Hsorted eq_refl eq_refl).
Defined.

(** ** The end-to-end scenario *)

(** C2.  On the intensities [5, 3, 3, 5] with 4-connectivity and ties by
    ascending index the sorted pixels are [1, 2, 0, 3]; as one row of four
    columns the image makes [maxtree_berger] raise, and as four rows of
    one column it gives the parents [0, 1, 2, 3]: neither is [1, 1, 1, 1]. *)
Theorem maxtree_berger_scenario :
  argsort [5; 3; 3; 5] = [1; 2; 0; 3] ∧
  maxtree_berger image_1x4 false = None ∧
  maxtree_berger image_4x1 false
  = Some (NdArray [4%nat; 1%nat] [0; 1; 2; 3], [1; 2; 0; 3]).
Proof. repeat split; reflexivity. Qed.

(** ** The input image is left alone *)

(** ** The store: [maxtree_berger] writes into its own arrays only *)


Lemma getitem_at_eq h r a i :
  h !! r = Some a → getitem_at h r i = getitem a i.
Proof. intros H. unfold getitem_at. by rewrite H. Qed.

Lemma setitem_at_eq h r a i v :
  h !! r = Some a →
  setitem_at h r i v = a' ← setitem a i v; Some (<[r := a']> h).
Proof. intros H. unfold setitem_at. by rewrite H. Qed.

Lemma lookup_insert_Some_eq (h : heap) r a a' :
  h !! r = Some a → <[r := a']> h !! r = Some a'.
Proof.
  intros H. apply list_lookup_insert_eq. by eapply lookup_lt_Some.
Qed.

Lemma find_pixel_parent_at_eq fuel h r a index :
  h !! r = Some a →
  find_pixel_parent_at fuel h r index
  = '(a', v) ← find_pixel_parent_rec fuel a index; Some (<[r := a']> h, v).
Proof.
  revert h a index. induction fuel as [|fuel IH]; intros h a index Hr;
    [done|].
  cbn [find_pixel_parent_at find_pixel_parent_rec].
  rewrite (getitem_at_eq _ _ _ _ Hr).
  destruct (getitem a index) as [root|]; [|done]. cbn [mbind option_bind].
  case_decide.
  - rewrite (IH _ _ _ Hr).
    destruct (find_pixel_parent_rec fuel a root) as [[a1 r1]|]; [|done].
    cbn [mbind option_bind].
    rewrite (setitem_at_eq _ _ a1) by by eapply lookup_insert_Some_eq.
    destruct (setitem a1 index r1) as [a2|]; [|done].
    cbn [mbind option_bind]. rewrite list_insert_insert_eq.
    rewrite (getitem_at_eq _ _ a2) by by eapply lookup_insert_Some_eq.
    by destruct (getitem a2 index).
  - cbn [mbind option_bind]. rewrite (getitem_at_eq _ _ _ _ Hr).
    destruct (getitem a index); [|done]. cbn [mbind option_bind].
    by rewrite list_insert_id.
Qed.

Lemma canonize_step_at_eq h image parents I P pi :
  h !! image = Some I → h !! parents = Some P →
  canonize_step_at image parents h pi
  = P' ← canonize_step I P pi; Some (<[parents := P']> h).
Proof.
  intros HI HP. unfold canonize_step_at, canonize_step.
  rewrite !(getitem_at_eq _ _ _ _ HP).
  destruct (getitem P pi) as [root|]; [|done]. cbn [mbind option_bind].
  rewrite !(getitem_at_eq _ _ _ _ HI), !(getitem_at_eq _ _ _ _ HP).
  destruct (getitem I root) as [i_root|]; [|done]. cbn [mbind option_bind].
  destruct (getitem P root) as [p_root|]; [|done]. cbn [mbind option_bind].
  rewrite !(getitem_at_eq _ _ _ _ HI).
  destruct (getitem I p_root) as [i_p_root|]; [|done].
  cbn [mbind option_bind].
  case_decide.
  - by rewrite (setitem_at_eq _ _ _ _ _ HP).
  - cbn [mbind option_bind]. by rewrite list_insert_id.
Qed.

(** A loop over the cells of an array that the body leaves alone is the
    loop over its contents. *)
Lemma for_cells_lift {S} (emb : S → heap) (g : S → Z → option S)
    body a buf cells xs s :
  (∀ s, emb s !! a = Some buf) →
  (∀ s x, body (emb s) x = emb <$> g s x) →
  Forall2 (λ i x, buf !! i = Some x) cells xs →
  for_cells body a cells (emb s) = emb <$> for_each g s xs.
Proof.
  intros Ha Hbody Hcells. revert s.
  induction Hcells as [|i x cells xs Hi _ IH]; intros s; [done|].
  cbn [for_cells for_each]. rewrite Ha. cbn [mbind option_bind].
  rewrite Hi. cbn [mbind option_bind]. rewrite Hbody.
  destruct (g s x) as [s'|]; [|done]. cbn [fmap option_fmap option_map mbind option_bind].
  apply IH.
Qed.

Lemma Forall2_seq_lookup (buf : list Z) :
  Forall2 (λ (i : nat) x, buf !! i = Some x) (seq 0 (length buf)) buf.
Proof.
  apply Forall2_same_length_lookup_2; [by rewrite length_seq|].
  intros i j x Hj Hx. apply lookup_seq in Hj as [-> _]. done.
Qed.

Lemma for_in_lift {S} (emb : S → heap) (g : S → Z → option S)
    body a buf s :
  (∀ s, emb s !! a = Some buf) →
  (∀ s x, body (emb s) x = emb <$> g s x) →
  for_in body a (emb s) = emb <$> for_each g s buf.
Proof.
  intros Ha Hbody. unfold for_in. rewrite Ha. cbn [mbind option_bind].
  eapply for_cells_lift; [done|done|]. apply Forall2_seq_lookup.
Qed.

Lemma for_in_reversed_lift {S} (emb : S → heap) (g : S → Z → option S)
    body a buf s :
  (∀ s, emb s !! a = Some buf) →
  (∀ s x, body (emb s) x = emb <$> g s x) →
  for_in_reversed body a (emb s) = emb <$> for_each g s (reverse buf).
Proof.
  intros Ha Hbody. unfold for_in_reversed. rewrite Ha.
  cbn [mbind option_bind].
  eapply for_cells_lift; [done|done|].
  apply Forall2_reverse, Forall2_seq_lookup.
Qed.

Lemma for_each_lift {S A} (emb : S → heap) (g : S → A → option S)
    body l s :
  (∀ s x, body (emb s) x = emb <$> g s x) →
  for_each body (emb s) l = emb <$> for_each g s l.
Proof.
  intros Hbody. revert s. induction l as [|x l IH]; intros s; [done|].
  cbn [for_each]. rewrite Hbody.
  destruct (g s x) as [s'|]; [|done].
  cbn [fmap option_fmap option_map mbind option_bind]. apply IH.
Qed.

Lemma canonize_at_eq h image parents nodes_order I P order :
  h !! image = Some I → h !! parents = Some P →
  h !! nodes_order = Some order → nodes_order ≠ parents → image ≠ parents →
  canonize_at image parents nodes_order h
  = P' ← canonize I P order; Some (<[parents := P']> h).
Proof.
  intros HI HP Ho Hop Hip. unfold canonize_at, canonize.
  pose proof (lookup_lt_Some _ _ _ HP) as Hlt.
  rewrite <- (list_insert_id h parents P HP) at 1.
  rewrite (for_in_lift (λ P, <[parents := P]> h) (canonize_step I)
             _ _ order).
  - by destruct (for_each (canonize_step I) P order).
  - intros s. by rewrite list_lookup_insert_ne.
  - intros s x.
    rewrite (canonize_step_at_eq _ _ _ I s).
    + destruct (canonize_step I s x); [|done]. simpl.
      by rewrite list_insert_insert_eq.
    + by rewrite list_lookup_insert_ne.
    + by apply list_lookup_insert_eq.
Qed.

Lemma filter_defined_at_eq h parents P u neighbors :
  h !! parents = Some P →
  filter_defined_at h parents u neighbors = filter_defined P u neighbors.
Proof.
  intros HP. induction neighbors as [|n neighbors IH]; [done|].
  cbn [filter_defined_at filter_defined].
  by rewrite (getitem_at_eq _ _ _ _ HP), IH.
Qed.

Lemma with_arrays_parents h p z st :
  (p < length h)%nat → with_arrays h p z st !! p = Some st.1.
Proof.
  intros Hp. unfold with_arrays. apply list_lookup_insert_eq.
  by rewrite length_insert.
Qed.

Lemma with_arrays_zparents h p z st :
  (z < length h)%nat → p ≠ z → with_arrays h p z st !! z = Some st.2.
Proof.
  intros Hz Hne. unfold with_arrays.
  rewrite list_lookup_insert_ne by done. by apply list_lookup_insert_eq.
Qed.

Lemma with_arrays_other h p z st r :
  r ≠ p → r ≠ z → with_arrays h p z st !! r = h !! r.
Proof.
  intros Hp Hz. unfold with_arrays.
  by rewrite !list_lookup_insert_ne.
Qed.

Lemma with_arrays_with_arrays h p z st st' :
  p ≠ z →
  with_arrays (with_arrays h p z st) p z st' = with_arrays h p z st'.
Proof.
  intros Hne. unfold with_arrays.
  rewrite (list_insert_insert_ne _ z p) by done.
  by rewrite !list_insert_insert_eq.
Qed.

Lemma with_arrays_id h p z P Z0 :
  h !! p = Some P → h !! z = Some Z0 → with_arrays h p z (P, Z0) = h.
Proof.
  intros HP HZ. unfold with_arrays. simpl.
  rewrite (list_insert_id h z) by done. by apply list_insert_id.
Qed.

Lemma merge_node_at_eq h pi p z st nei_pi :
  (p < length h)%nat → (z < length h)%nat → p ≠ z →
  merge_node_at pi p z (with_arrays h p z st) nei_pi
  = with_arrays h p z <$> merge_node pi st nei_pi.
Proof.
  intros Hp Hz Hne. destruct st as [P Z0].
  unfold merge_node_at, merge_node, find_pixel_parent.
  rewrite (find_pixel_parent_at_eq _ _ _ Z0)
    by by apply with_arrays_zparents.
  destruct (find_pixel_parent_rec NPY_MAXDIMS Z0 nei_pi) as [[Z1 r]|];
    [|done].
  cbn [mbind option_bind].
  assert (<[z := Z1]> (with_arrays h p z (P, Z0)) = with_arrays h p z (P, Z1))
    as ->.
  { unfold with_arrays. simpl. rewrite (list_insert_insert_ne _ z p) by done.
    by rewrite list_insert_insert_eq. }
  case_decide; [|done].
  rewrite (setitem_at_eq _ _ Z1) by by apply with_arrays_zparents.
  destruct (setitem Z1 r (to_uint32 pi)) as [Z2|]; [|done].
  cbn [mbind option_bind].
  assert (<[z := Z2]> (with_arrays h p z (P, Z1)) = with_arrays h p z (P, Z2))
    as ->.
  { unfold with_arrays. simpl. rewrite (list_insert_insert_ne _ z p) by done.
    by rewrite list_insert_insert_eq. }
  rewrite (getitem_at_eq _ _ Z2) by by apply with_arrays_zparents.
  destruct (getitem Z2 nei_pi) as [r'|]; [|done]. cbn [mbind option_bind].
  rewrite (setitem_at_eq _ _ P) by by apply with_arrays_parents.
  destruct (setitem P r' (to_uint32 pi)) as [P1|]; [|done].
  cbn [mbind option_bind fmap option_fmap option_map]. f_equal.
  unfold with_arrays. simpl. by rewrite list_insert_insert_eq.
Qed.

Lemma visit_pixel_at_eq h width height resolution u connection8 p z st pi :
  (p < length h)%nat → (z < length h)%nat → p ≠ z →
  visit_pixel_at width height resolution u connection8 p z
                 (with_arrays h p z st) pi
  = with_arrays h p z
      <$> visit_pixel width height resolution u connection8 st pi.
Proof.
  intros Hp Hz Hne. destruct st as [P Z0].
  unfold visit_pixel_at, visit_pixel.
  rewrite (setitem_at_eq _ _ P) by by apply with_arrays_parents.
  destruct (setitem P pi (to_uint32 pi)) as [P1|]; [|done].
  cbn [mbind option_bind].
  assert (<[p := P1]> (with_arrays h p z (P, Z0)) = with_arrays h p z (P1, Z0))
    as ->.
  { unfold with_arrays. simpl. by rewrite list_insert_insert_eq. }
  rewrite (setitem_at_eq _ _ Z0) by by apply with_arrays_zparents.
  destruct (setitem Z0 pi (to_uint32 pi)) as [Z1|]; [|done].
  cbn [mbind option_bind].
  assert (<[z := Z1]> (with_arrays h p z (P1, Z0)) = with_arrays h p z (P1, Z1))
    as ->.
  { unfold with_arrays. simpl. rewrite (list_insert_insert_ne _ z p) by done.
    by rewrite list_insert_insert_eq. }
  cbv zeta.
  rewrite (filter_defined_at_eq _ _ P1) by by apply with_arrays_parents.
  destruct (filter_defined P1 u _) as [neighbors|]; [|done].
  cbn [mbind option_bind].
  apply for_each_lift. intros s x. by apply merge_node_at_eq.
Qed.

Lemma lookup_app_add (h : heap) l (n : nat) :
  (h ++ l) !! (length h + n)%nat = l !! n.
Proof.
  rewrite lookup_app_r by lia. f_equal. lia.
Qed.

Lemma maxtree_berger_at_eq sorted h image connection8 flat :
  h !! array_ref image = Some flat →
  maxtree_berger_at sorted h image connection8
  = '(P, Zp) ← build sorted (NdArray (array_shape image) flat) connection8;
    P' ← canonize flat P sorted;
    Some (h ++ [flat; sorted; P'; Zp],
          (Array (array_shape image) (length h + 2),
           Array [length sorted] (length h + 1))).
Proof.
  intros Hflat. unfold maxtree_berger_at, build, alloc.
  cbn [shape data].
  destruct (array_shape image !! 0%nat) as [w|]; [|done].
  destruct (array_shape image !! 1%nat) as [ht|]; [|done].
  cbn [fmap option_fmap option_map mbind option_bind].
  rewrite Hflat. cbn [mbind option_bind].
  set (u := Z.of_nat (length flat) + 2).
  set (P0 := replicate (length flat) (to_uint32 u)).
  rewrite !length_app. cbn [length].
  replace (length h + 1 + 1)%nat with (length h + 2)%nat by lia.
  replace (length h + 2 + 1)%nat with (length h + 3)%nat by lia.
  rewrite <- !app_assoc. cbn [app].
  rewrite (lookup_app_add h _ 2). cbn [lookup list_lookup mbind option_bind].
  rewrite <- !app_assoc. cbn [app].
  set (h4 := h ++ [flat; sorted; P0; P0]).
  assert (length h4 = length h + 4)%nat as Hlen
    by (unfold h4; rewrite length_app; simpl; lia).
  assert (h4 !! length h = Some flat) as H0.
  { unfold h4. by rewrite <- (Nat.add_0_r (length h)), lookup_app_add. }
  assert (h4 !! (length h + 1)%nat = Some sorted) as H1.
  { unfold h4. by rewrite lookup_app_add. }
  assert (h4 !! (length h + 2)%nat = Some P0) as H2.
  { unfold h4. by rewrite lookup_app_add. }
  assert (h4 !! (length h + 3)%nat = Some P0) as H3.
  { unfold h4. by rewrite lookup_app_add. }
  rewrite <- (with_arrays_id h4 (length h + 2) (length h + 3) P0 P0 H2 H3)
    at 1.
  rewrite (for_in_reversed_lift
             (with_arrays h4 (length h + 2) (length h + 3))
             (visit_pixel (Z.of_nat w) (Z.of_nat ht)
                (Z.of_nat (length flat)) u connection8) _ _ sorted).
  2: { intros s. by rewrite with_arrays_other by lia. }
  2: { intros s x. apply visit_pixel_at_eq; lia. }
  destruct (for_each _ (P0, P0) (reverse sorted)) as [[P Zp]|]; [|done].
  cbn [fmap option_fmap option_map mbind option_bind].
  rewrite (canonize_at_eq _ _ _ _ flat P sorted).
  - destruct (canonize flat P sorted) as [P'|]; [|done].
    cbn [mbind option_bind]. do 2 f_equal.
    unfold with_arrays, h4. cbn [fst snd].
    rewrite list_insert_insert_eq.
    rewrite !insert_app_r. done.
  - by rewrite with_arrays_other by lia.
  - apply with_arrays_parents. lia.
  - by rewrite with_arrays_other by lia.
  - lia.
  - lia.
Qed.

(** C10.  When [maxtree_berger] returns, its argument [image] and every
    other array that existed at the call hold what they held at the
    call. *)
Theorem maxtree_berger_keeps_image sorted h image connection8 h' result :
  maxtree_berger_at sorted h image connection8 = Some (h', result) →
  h' !! array_ref image = h !! array_ref image ∧
  ∀ r : ref, (r < length h)%nat → h' !! r = h !! r.
Proof.
  intros Hrun.
  destruct (h !! array_ref image) as [flat|] eqn:Hflat.
  2: { unfold maxtree_berger_at in Hrun. rewrite Hflat in Hrun.
       destruct (array_shape image !! 0%nat); [|done].
       by destruct (array_shape image !! 1%nat). }
  rewrite (maxtree_berger_at_eq _ _ _ _ _ Hflat) in Hrun.
  destruct (build _ _ _) as [[P Zp]|]; [|done]. cbn [mbind option_bind] in Hrun.
  destruct (canonize flat P sorted) as [P'|]; [|done].
  cbn [mbind option_bind] in Hrun. injection Hrun as <- _.
  assert (∀ r : ref, (r < length h)%nat →
            (h ++ [flat; sorted; P'; Zp]) !! r = h !! r) as Hframe.
  { intros r Hr. by apply lookup_app_l. }
  split; [|done].
  rewrite Hframe, Hflat; [done|]. by eapply lookup_lt_Some.
Qed.

Lemma maxtree_berger_keeps_image_witness :
  maxtree_berger_at (argsort (data image_3x2)) [[7; 7]; data image_3x2]
                    (Array [3%nat; 2%nat] 1) true
  = Some ([[7; 7]; [4; 7; 4; 9; 4; 8]; [4; 7; 4; 9; 4; 8];
           [0; 2; 4; 1; 5; 3]; [0; 1; 0; 3; 0; 5]; [0; 4; 0; 0; 2; 4]],
          (Array [3%nat; 2%nat] 4, Array [6%nat] 3)) ∧
  [[7; 7]; [4; 7; 4; 9; 4; 8]; [4; 7; 4; 9; 4; 8];
   [0; 2; 4; 1; 5; 3]; [0; 1; 0; 3; 0; 5]; [0; 4; 0; 0; 2; 4]]
    !! array_ref (Array [3%nat; 2%nat] 1)
  = [[7; 7]; data image_3x2] !! array_ref (Array [3%nat; 2%nat] 1) ∧
  ∀ r : nat, (r < 2)%nat →
    [[7; 7]; [4; 7; 4; 9; 4; 8]; [4; 7; 4; 9; 4; 8];
     [0; 2; 4; 1; 5; 3]; [0; 1; 0; 3; 0; 5]; [0; 4; 0; 0; 2; 4]] !! r
    = [[7; 7]; data image_3x2] !! r.
Proof.
  split; [reflexivity|].
  exact (maxtree_berger_keeps_image (argsort (data image_3x2))
           [[7; 7]; data image_3x2] (Array [3%nat; 2%nat] 1) true
           _ _ eq_refl).
Defined.

(** ** Images of two rows or more: the function returns *)

Lemma for_each_total {S A} (body : S → A → option S) (P : S → Prop) l :
  (∀ s x, x ∈ l → P s → ∃ s', body s x = Some s' ∧ P s') →
  ∀ s, P s → ∃ s', for_each body s l = Some s' ∧ P s'.
Proof.
  induction l as [|x l IH]; intros Hbody s Hs; simpl; [by exists s|].
  destruct (Hbody s x ltac:(by left) Hs) as (s1 & -> & Hs1). simpl.
  apply IH; [|done]. intros s2 y Hy. apply Hbody. by right.
Qed.


Section totality.
Context (flat order : list Z).
Context (Horder : is_argsort flat order).
Context (Hsize : Z.of_nat (length flat) + 2 < 2 ^ 32).

(** In a linked array every visited pixel has a chain to a root: the
    positions decrease along it, so the chain is no longer than the
    visited part of the order. *)
Lemma linked_has_chain k z i x :
  linked order k z → (k ≤ i)%nat → order !! i = Some x →
  ∃ path r, chain z x path r ∧ (length path ≤ i - k)%nat.
Proof.
  intros Hz. revert x. induction i as [i IH] using lt_wf_ind.
  intros x Hi Hx.
  destruct (linked_getitem flat order Horder k z i x Hz Hi Hx)
    as (j & q & Hj & Hq & Hget).
  destruct (decide (q = x)) as [->|Hne].
  - exists [], x. split; [by apply chain_root|simpl; lia].
  - assert (j ≠ i) as Hji.
    { intros ->. apply Hne. congruence. }
    destruct (IH j ltac:(lia) q ltac:(lia) Hq) as (path & r & Hc & Hlen).
    exists (x :: path), r. split; [by eapply chain_step|simpl; lia].
Qed.

(** From here on the image has at most [NPY_MAXDIMS] pixels, so that no
    chain of [find_pixel_parent] is too long for NumPy. *)
Context (Hsmall : (length flat ≤ NPY_MAXDIMS)%nat).




End totality.


(** The bound on the size is needed: on [image_2x66] the pass links
    [zparents] into the chain [2, 4, .., 130] of 65 cells, and the visit of
    pixel [0] calls [find_pixel_parent] on it. *)
Lemma maxtree_berger_tall_image_raises sorted_pixels connection8 :
  is_argsort (data image_2x66) sorted_pixels →
  maxtree_berger_from sorted_pixels image_2x66 connection8 = None.
Proof.
  intros Hsorted.
  assert (NoDup (data image_2x66)) as Hnd.
  { apply (bool_decide_unpack _). by vm_compute. }
  rewrite (is_argsort_unique _ _ _ Hnd Hsorted (argsort_is_argsort _)).
  by destruct connection8; vm_compute.
Qed.

Lemma maxtree_berger_single_row_raises sorted_pixels image connection8 h :
  shape image = [1%nat; h] → data image ≠ [] →
  is_argsort (data image) sorted_pixels →
  maxtree_berger_from sorted_pixels image connection8 = None.
Proof.
  intros Hshape Hne Hsorted. unfold maxtree_berger_from.
  by rewrite (build_single_row_raises _ _ _ _ Hshape Hne Hsorted).
Qed.

(** With two rows or more the neighbours returned are distinct. *)
Lemma NoDup_append_if c l x :
  NoDup l → (c = true → x ∉ l) → NoDup (append_if c l x).
Proof.
  intros Hl Hx. destruct c; simpl; [|done].
  apply NoDup_app. split_and!; [done| |apply NoDup_singleton].
  intros y Hy Hyx. apply list_elem_of_singleton in Hyx as ->. by apply Hx.
Qed.

Lemma get_8_neighbors_NoDup width height resolution pi :
  2 ≤ width →
  NoDup (get_8_neighbors width height resolution pi (pi `mod` width)).
Proof.
  intros Hw. unfold get_8_neighbors.
  rewrite get_4_neighbors_vertical by done. cbv zeta.
  repeat (apply NoDup_append_if;
          [|intros _; rewrite ?elem_of_append_if, ?elem_of_nil;
            intros Hin; repeat destruct Hin as [Hin|Hin];
            try done; lia]).
  constructor.
Qed.

Lemma get_4_neighbors_NoDup width height resolution pi :
  2 ≤ width →
  NoDup (get_4_neighbors width height resolution pi (pi `mod` width)).
Proof.
  intros Hw. rewrite get_4_neighbors_vertical by done.
  repeat (apply NoDup_append_if;
          [|intros _; rewrite ?elem_of_append_if, ?elem_of_nil;
            intros Hin; repeat destruct Hin as [Hin|Hin];
            try done; lia]).
  constructor.
Qed.

(** * Further properties of the code *)

(** ** [find_pixel_parent] *)


Lemma chain_root_self parents i path r :
  chain parents i path r → getitem parents r = Some r.
Proof. induction 1; auto. Qed.

Lemma chain_cons_ne parents i path r :
  chain parents i (i :: path) r → r ≠ i.
Proof.
  intros Hc ->. pose proof (chain_root_self _ _ _ _ Hc) as Hr.
  inversion Hc; simplify_eq.
Qed.

(** X2.  A second call with the same index finds the same root and leaves
    the array as the first call left it. *)
Theorem find_pixel_parent_again parents index parents' r :
  find_pixel_parent parents index = Some (parents', r) →
  find_pixel_parent parents' index = Some (parents', r).
Proof.
  intros Hfind.
  pose proof Hfind as (path & Hc & ->)%find_pixel_parent_rec_inv.
  destruct path as [|i path]; [done|].
  assert (i = index) as -> by (by inversion Hc).
  pose proof (chain_cons_ne _ _ _ _ Hc) as Hne.
  pose proof (chain_root_self _ _ _ _ Hc) as Hr.
  set (a := compress parents (index :: path) r) in *.
  assert (getitem a index = Some r) as Hindex.
  { apply compress_getitem_in; [|by left].
    intros y Hy. by eapply chain_is_Some. }
  assert (getitem a r = Some r) as Hroot.
  { destruct (compress_getitem_or parents (index :: path) r r) as [H|H];
      [done|]. fold a in H. congruence. }
  rewrite (find_pixel_parent_chain a index [index] r).
  - f_equal. f_equal. simpl. unfold setitem.
    unfold getitem in Hindex.
    destruct (norm_index a index) as [k|]; [|done]. simpl in *.
    by apply list_insert_id.
  - eapply chain_step; [done|done|]. by apply chain_root.
  - unfold NPY_MAXDIMS. simpl. lia.
Qed.

Lemma find_pixel_parent_again_witness :
  find_pixel_parent [1; 2; 2; 0] 3 = Some ([2; 2; 2; 2], 2) ∧
  find_pixel_parent [2; 2; 2; 2] 3 = Some ([2; 2; 2; 2], 2).
Proof.
  split; [reflexivity|].
  exact (find_pixel_parent_again [1; 2; 2; 0] 3 [2; 2; 2; 2] 2 eq_refl).
Defined.

Lemma compress_getitem_cases parents path r x :
  getitem (compress parents path r) x = getitem parents x ∨
  (getitem (compress parents path r) x = Some r ∧
   ∃ y, y ∈ path ∧ norm_index parents y = norm_index parents x).
Proof.
  induction path as [|y path IH]; simpl; [by left|].
  destruct (setitem _ y r) as [a|] eqn:Ha; simpl.
  - rewrite (getitem_setitem _ _ _ _ _ Ha).
    rewrite !(norm_index_length (compress parents path r) parents)
      by apply compress_length.
    case_decide as Hcell.
    + right. split; [done|]. exists y. split; [by left|done].
    + destruct IH as [IH|(IH & z & Hz & Hzx)]; [by left|].
      right. split; [done|]. exists z. split; [by right|done].
  - destruct IH as [IH|(IH & z & Hz & Hzx)]; [by left|].
    right. split; [done|]. exists z. split; [by right|done].
Qed.

Lemma chain_next parents i path r y j :
  chain parents i path r → y ∈ path → getitem parents y = Some j →
  ∃ l, chain parents j l r.
Proof.
  intros Hc Hy Hyj. apply list_elem_of_split in Hy as (l1 & l2 & ->).
  pose proof (chain_suffix _ _ _ _ _ _ Hc) as Hsuf.
  inversion Hsuf; simplify_eq. by exists l2.
Qed.

(** X3.  Path compression changes no root: an entry whose parent pointers
    reached the self-referencing entry [r'] before the call still reaches
    [r'] after it. *)
Theorem find_pixel_parent_keeps_roots parents index parents' r x path r' :
  find_pixel_parent parents index = Some (parents', r) →
  chain parents x path r' →
  ∃ path', chain parents' x path' r'.
Proof.
  intros (pathi & Hc & ->)%find_pixel_parent_rec_inv Hx.
  pose proof (chain_root_self _ _ _ _ Hc) as Hr.
  assert (∀ z, getitem parents z = Some z →
               getitem (compress parents pathi r) z = Some z) as Hroots.
  { intros z Hz.
    destruct (compress_getitem_cases parents pathi r z)
      as [->|(-> & y & Hy & Hyz)]; [done|].
    destruct (chain_next _ _ _ _ y z Hc Hy) as [l Hl].
    { rewrite <- Hz. by apply getitem_same_cell. }
    pose proof (chain_root _ _ Hz) as Hz'.
    by destruct (chain_det _ _ _ _ _ _ Hl Hz') as [_ ->]. }
  induction Hx as [r' Hr'|x j path r' Hxj Hne Hx [path' IH]].
  - exists []. apply chain_root. by apply Hroots.
  - destruct (compress_getitem_cases parents pathi r x)
      as [Hsame|(Hnew & y & Hy & Hyx)].
    + exists (x :: path'). eapply chain_step; [|done|done]. congruence.
    + destruct (chain_next _ _ _ _ y j Hc Hy) as [l Hl].
      { rewrite <- Hxj. by apply getitem_same_cell. }
      destruct (chain_det _ _ _ _ _ _ Hl Hx) as [_ ->].
      destruct (decide (r' = x)) as [->|Hr'x].
      * exists []. by apply chain_root.
      * exists [x]. eapply chain_step; [done|done|].
        apply chain_root. by apply Hroots.
Qed.

Lemma find_pixel_parent_keeps_roots_witness :
  find_pixel_parent [1; 2; 2; 0] 0 = Some ([2; 2; 2; 0], 2) ∧
  chain [1; 2; 2; 0] 3 [3; 0; 1] 2 ∧
  ∃ path', chain [2; 2; 2; 0] 3 path' 2.
Proof.
  assert (chain [1; 2; 2; 0] 3 [3; 0; 1] 2) as Hc.
  { eapply chain_step; [reflexivity|lia|].
    eapply chain_step; [reflexivity|lia|].
    eapply chain_step; [reflexivity|lia|].
    apply chain_root. reflexivity. }
  split; [reflexivity|]. split; [exact Hc|].
  exact (find_pixel_parent_keeps_roots [1; 2; 2; 0] 0 [2; 2; 2; 0] 2
           3 [3; 0; 1] 2 eq_refl Hc).
Defined.

(** ** [canonize] *)

Lemma canonize_step_lookup_other image parents pi parents' (k : nat) :
  canonize_step image parents pi = Some parents' →
  norm_index parents pi ≠ Some k → parents' !! k = parents !! k.
Proof.
  unfold canonize_step. intros H Hk.
  destruct (getitem parents pi) as [root|]; [|done]. simpl in H.
  destruct (getitem image root) as [ir|]; [|done]. simpl in H.
  destruct (getitem parents root) as [pr|]; [|done]. simpl in H.
  destruct (getitem image pr) as [ipr|]; [|done]. simpl in H.
  case_decide; [|by simplify_eq].
  unfold setitem in H. destruct (norm_index parents pi) as [kp|]; [|done].
  simpl in H. injection H as <-.
  apply list_lookup_insert_ne. congruence.
Qed.

(** X4.  [canonize] assigns only to the entries of the pixels it is given:
    the array keeps its length, and a cell that no index of [nodes_order]
    addresses holds afterwards what it held before. *)
Theorem canonize_touches_only_order image parents nodes_order parents' :
  canonize image parents nodes_order = Some parents' →
  length parents' = length parents ∧
  ∀ k : nat, (∀ pi, pi ∈ nodes_order → norm_index parents pi ≠ Some k) →
             parents' !! k = parents !! k.
Proof.
  unfold canonize. revert parents.
  induction nodes_order as [|pi l IH]; intros parents Hrun; simpl in Hrun.
  - by simplify_eq.
  - destruct (canonize_step image parents pi) as [parents1|] eqn:Hstep;
      [|done].
    simpl in Hrun. destruct (IH _ Hrun) as [Hlen Hother].
    pose proof (canonize_step_length _ _ _ _ Hstep) as Hlen1.
    split; [congruence|].
    intros k Hk. rewrite Hother.
    + eapply canonize_step_lookup_other; [done|]. apply Hk. by left.
    + intros x Hx. rewrite (norm_index_length parents1 parents) by done.
      apply Hk. by right.
Qed.

Lemma canonize_touches_only_order_witness :
  canonize [3; 3; 5; 5] [0; 0; 1; 2] [0; 1; 2] = Some [0; 0; 0; 2] ∧
  length [0; 0; 0; 2] = length [0; 0; 1; 2] ∧
  ∀ k : nat,
    (∀ pi, pi ∈ [0; 1; 2] → norm_index [0; 0; 1; 2] pi ≠ Some k) →
    [0; 0; 0; 2] !! k = [0; 0; 1; 2] !! k.
Proof.
  split; [reflexivity|].
  exact (canonize_touches_only_order
           [3; 3; 5; 5] [0; 0; 1; 2] [0; 1; 2] [0; 0; 0; 2] eq_refl).
Defined.

(** ** Neighbours *)

Lemma elem_of_get_4_neighbors width height resolution pi pixel_row n :
  n ∈ get_4_neighbors width height resolution pi pixel_row ↔
  (0 ≤ pi - width ∧ n = pi - width) ∨
  (pi + width < resolution ∧ n = pi + width) ∨
  ((pi - 1) `mod` width = pixel_row ∧ n = pi - 1) ∨
  ((pi + 1) `mod` width = pixel_row ∧ n = pi + 1).
Proof.
  unfold get_4_neighbors. cbv zeta.
  rewrite !elem_of_append_if, elem_of_nil, !bool_decide_eq_true. tauto.
Qed.

Lemma elem_of_get_8_neighbors width height resolution pi pixel_row n :
  n ∈ get_8_neighbors width height resolution pi pixel_row ↔
  n ∈ get_4_neighbors width height resolution pi pixel_row ∨
  (0 ≤ pi - width - 1
   ∧ (pi - width - 1) `mod` width = pixel_row - 1 ∧ n = pi - width - 1) ∨
  (0 ≤ pi - width - 1 + 2
   ∧ (pi - width - 1 + 2) `mod` width = pixel_row - 1
   ∧ n = pi - width - 1 + 2) ∨
  (pi + width - 1 < resolution
   ∧ (pi + width - 1) `mod` width = pixel_row + 1 ∧ n = pi + width - 1) ∨
  (pi + width - 1 + 2 < resolution
   ∧ (pi + width - 1 + 2) `mod` width = pixel_row + 1
   ∧ n = pi + width - 1 + 2).
Proof.
  unfold get_8_neighbors. cbv zeta.
  rewrite !elem_of_append_if, !andb_true_iff, !bool_decide_eq_true. tauto.
Qed.

(** X5.  On an image of two rows or more, [get_4_neighbors] (called with
    [pixel_row = pi % width], as [maxtree_berger] calls it) returns the
    pixel [width] before, when it is not negative, and the pixel [width]
    after, when it is below [resolution]; [pi - 1] and [pi + 1] are never
    returned. *)
Theorem get_4_neighbors_two_rows width height resolution pi n :
  2 ≤ width →
  n ∈ get_4_neighbors width height resolution pi (pi `mod` width) ↔
  (n = pi - width ∧ 0 ≤ n) ∨ (n = pi + width ∧ n < resolution).
Proof.
  intros Hw. rewrite elem_of_get_4_neighbors. split.
  - intros [[H ->]|[[H ->]|[[H ->]|[H ->]]]].
    + by left.
    + by right.
    + by apply mod_pred_ne in H.
    + by apply mod_succ_ne in H.
  - intros [[-> H]|[-> H]]; [by left|right; by left].
Qed.

Lemma get_4_neighbors_two_rows_witness :
  2 ≤ 3 ∧
  (4 ∈ get_4_neighbors 3 2 6 1 (1 `mod` 3) ↔
   (4 = 1 - 3 ∧ 0 ≤ 4) ∨ (4 = 1 + 3 ∧ 4 < 6)).
Proof.
  split; [lia|].
  exact (get_4_neighbors_two_rows 3 2 6 1 4 ltac:(lia)).
Defined.

(** X6.  On an image of two rows or more, the neighbours of a pixel of
    the image are indices of the image, each listed once, for both
    connectivities. *)
Theorem get_neighbors_valid_two_rows width height resolution pi :
  2 ≤ width → 0 ≤ pi < resolution →
  NoDup (get_4_neighbors width height resolution pi (pi `mod` width)) ∧
  Forall (λ n, 0 ≤ n < resolution)
         (get_4_neighbors width height resolution pi (pi `mod` width)) ∧
  NoDup (get_8_neighbors width height resolution pi (pi `mod` width)) ∧
  Forall (λ n, 0 ≤ n < resolution)
         (get_8_neighbors width height resolution pi (pi `mod` width)).
Proof.
  intros Hw Hpi. split_and!.
  - by apply get_4_neighbors_NoDup.
  - by apply get_4_neighbors_in_range.
  - by apply get_8_neighbors_NoDup.
  - by apply get_8_neighbors_in_range.
Qed.

Lemma get_neighbors_valid_two_rows_witness :
  2 ≤ 3 ∧ 0 ≤ 4 < 9 ∧
  NoDup (get_4_neighbors 3 3 9 4 (4 `mod` 3)) ∧
  Forall (λ n, 0 ≤ n < 9) (get_4_neighbors 3 3 9 4 (4 `mod` 3)) ∧
  NoDup (get_8_neighbors 3 3 9 4 (4 `mod` 3)) ∧
  Forall (λ n, 0 ≤ n < 9) (get_8_neighbors 3 3 9 4 (4 `mod` 3)).
Proof.
  split; [lia|]. split; [lia|].
  exact (get_neighbors_valid_two_rows 3 3 9 4 ltac:(lia) ltac:(lia)).
Defined.

Lemma get_4_neighbors_symmetric width height resolution pi n :
  0 ≤ pi < resolution →
  n ∈ get_4_neighbors width height resolution pi (pi `mod` width) →
  pi ∈ get_4_neighbors width height resolution n (n `mod` width).
Proof.
  intros Hpi. rewrite !elem_of_get_4_neighbors.
  intros [[H Hn]|[[H Hn]|[[H Hn]|[H Hn]]]].
  - right. left. lia.
  - left. lia.
  - right. right. right. rewrite <- Hn in H.
    replace (n + 1) with pi by lia. split; [done|lia].
  - right. right. left. rewrite <- Hn in H.
    replace (n - 1) with pi by lia. split; [done|lia].
Qed.

(** X7.  Being a neighbour is symmetric, for both connectivities and
    every width: a pixel of the image is a neighbour of each of its
    neighbours. *)
Theorem get_8_neighbors_symmetric width height resolution pi n :
  0 ≤ pi < resolution →
  (n ∈ get_4_neighbors width height resolution pi (pi `mod` width) →
   pi ∈ get_4_neighbors width height resolution n (n `mod` width)) ∧
  (n ∈ get_8_neighbors width height resolution pi (pi `mod` width) →
   pi ∈ get_8_neighbors width height resolution n (n `mod` width)).
Proof.
  intros Hpi. split; [by apply get_4_neighbors_symmetric|].
  rewrite !elem_of_get_8_neighbors.
  intros [H4|[(H & Hm & Hn)|[(H & Hm & Hn)|[(H & Hm & Hn)|(H & Hm & Hn)]]]].
  - left. by apply get_4_neighbors_symmetric.
  - right. right. right. right. rewrite <- Hn in Hm.
    replace (n + width - 1 + 2) with pi by lia. lia.
  - right. right. right. left. rewrite <- Hn in Hm.
    replace (n + width - 1) with pi by lia. lia.
  - right. right. left. rewrite <- Hn in Hm.
    replace (n - width - 1 + 2) with pi by lia. lia.
  - right. left. rewrite <- Hn in Hm.
    replace (n - width - 1) with pi by lia. lia.
Qed.

Lemma get_8_neighbors_symmetric_witness :
  0 ≤ 4 < 9 ∧
  (7 ∈ get_4_neighbors 3 3 9 4 (4 `mod` 3) →
   4 ∈ get_4_neighbors 3 3 9 7 (7 `mod` 3)) ∧
  (8 ∈ get_8_neighbors 3 3 9 4 (4 `mod` 3) →
   4 ∈ get_8_neighbors 3 3 9 8 (8 `mod` 3)).
Proof.
  split; [lia|].
  split.
  - exact (proj1 (get_8_neighbors_symmetric 3 3 9 4 7 ltac:(lia))).
  - exact (proj2 (get_8_neighbors_symmetric 3 3 9 4 8 ltac:(lia))).
Defined.

(** X8.  A pixel is never among its own neighbours, whatever the width
    (one row included) and the connectivity. *)
Theorem pixel_not_own_neighbor width height resolution pi :
  1 ≤ width →
  (pi ∉ get_4_neighbors width height resolution pi (pi `mod` width)) ∧
  (pi ∉ get_8_neighbors width height resolution pi (pi `mod` width)).
Proof.
  intros Hw.
  assert (pi ∉ get_4_neighbors width height resolution pi (pi `mod` width))
    as H4.
  { rewrite elem_of_get_4_neighbors. lia. }
  split; [done|]. rewrite elem_of_get_8_neighbors.
  intros [H|[(H & Hm & Hn)|[(H & Hm & Hn)|[(H & Hm & Hn)|(H & Hm & Hn)]]]].
  - done.
  - lia.
  - assert (width = 1) as -> by lia. rewrite !Z.mod_1_r in Hm. lia.
  - assert (width = 1) as -> by lia. rewrite !Z.mod_1_r in Hm. lia.
  - lia.
Qed.

Lemma pixel_not_own_neighbor_witness :
  1 ≤ 1 ∧
  (2 ∉ get_4_neighbors 1 4 4 2 (2 `mod` 1)) ∧
  (2 ∉ get_8_neighbors 1 4 4 2 (2 `mod` 1)).
Proof.
  split; [lia|].
  exact (pixel_not_own_neighbor 1 4 4 2 ltac:(lia)).
Defined.

(** ** [maxtree_berger] *)



(** X10.  On every non-empty image of a single row, whatever the
    intensities and the connectivity, [maxtree_berger] raises: the last
    pixel of the row gets the neighbour [resolution], which line 146 reads
    in [parents]. *)
Theorem maxtree_berger_one_row_raises sorted_pixels image connection8 h :
  shape image = [1%nat; h] → data image ≠ [] →
  is_argsort (data image) sorted_pixels →
  maxtree_berger_from sorted_pixels image connection8 = None.
Proof. apply maxtree_berger_single_row_raises. Qed.

Lemma maxtree_berger_one_row_raises_witness :
  shape image_1x4 = [1%nat; 4%nat] ∧ data image_1x4 ≠ [] ∧
  is_argsort (data image_1x4) (argsort (data image_1x4)) ∧
  maxtree_berger_from (argsort (data image_1x4)) image_1x4 true = None.
Proof.
  assert (data image_1x4 ≠ []) as Hne by (intros H; discriminate H).
  split_and!; [reflexivity|done|apply argsort_is_argsort|].
  exact (maxtree_berger_one_row_raises (argsort (data image_1x4))
           image_1x4 true 4%nat eq_refl Hne
           (argsort_is_argsort (data image_1x4))).
Defined.

Lemma build_length sorted_pixels image connection8 P Z0 :
  build sorted_pixels image connection8 = Some (P, Z0) →
  length P = length (data image) ∧ length Z0 = length (data image).
Proof.
  unfold build.
  destruct (shape image !! 0%nat) as [w|]; [|done]. simpl.
  destruct (shape image !! 1%nat) as [h|]; [|done]. simpl.
  intros Hrun.
  apply (for_each_invariant _
           (λ s, length s.1 = length (data image)
                 ∧ length s.2 = length (data image)) _
           (λ s x s' _ Hs Hv,
              let '(conj H1 H2) := visit_pixel_length _ _ _ _ _ _ _ _ Hv in
              conj (eq_trans H1 (proj1 Hs)) (eq_trans H2 (proj2 Hs)))
           _ (P, Z0)) in Hrun; [done|].
  simpl. by rewrite length_replicate.
Qed.

Lemma canonize_length image parents nodes_order parents' :
  canonize image parents nodes_order = Some parents' →
  length parents' = length parents.
Proof.
  unfold canonize.
  apply (for_each_invariant (canonize_step image)
           (λ a, length a = length parents) nodes_order); [|done].
  intros a x a' _ Ha Hstep.
  by rewrite (canonize_step_length _ _ _ _ Hstep).
Qed.

(** X11.  Whatever the input, when [maxtree_berger] returns, the parents
    have the shape of the image and as many entries as it has pixels, and
    the second component is the sorted pixels, as the sort gave them. *)
Theorem maxtree_berger_output_shape
    sorted_pixels image connection8 parents order :
  maxtree_berger_from sorted_pixels image connection8
  = Some (parents, order) →
  shape parents = shape image ∧
  length (data parents) = length (data image) ∧
  order = sorted_pixels.
Proof.
  unfold maxtree_berger_from.
  destruct (build sorted_pixels image connection8) as [[P Z0]|] eqn:Hbuild;
    [|done].
  simpl.
  destruct (canonize (data image) P sorted_pixels) as [P'|] eqn:Hcanon;
    [|done].
  simpl. intros [= <- <-]. simpl. split_and!; [done| |done].
  rewrite (canonize_length _ _ _ _ Hcanon).
  by destruct (build_length _ _ _ _ _ Hbuild).
Qed.

Lemma maxtree_berger_output_shape_witness :
  maxtree_berger_from [0; 2; 4; 1; 5; 3] image_3x2 true
  = Some (NdArray [3%nat; 2%nat] [0; 1; 0; 3; 0; 5], [0; 2; 4; 1; 5; 3]) ∧
  shape (NdArray [3%nat; 2%nat] [0; 1; 0; 3; 0; 5]) = shape image_3x2 ∧
  length (data (NdArray [3%nat; 2%nat] [0; 1; 0; 3; 0; 5]))
  = length (data image_3x2) ∧
  [0; 2; 4; 1; 5; 3] = [0; 2; 4; 1; 5; 3].
Proof.
  split; [reflexivity|].
  exact (maxtree_berger_output_shape [0; 2; 4; 1; 5; 3] image_3x2 true
           (NdArray [3%nat; 2%nat] [0; 1; 0; 3; 0; 5]) [0; 2; 4; 1; 5; 3]
           eq_refl).
Defined.

(** X12.  The returned parents, read as the flat array of the pixels,
    are a forest: from every pixel the parent pointers reach, without a
    cycle and without leaving the image, a pixel that is its own parent. *)
Theorem maxtree_berger_result_forest
    sorted_pixels image connection8 parents order :
  rectangular image →
  Z.of_nat (length (data image)) + 2 < 2 ^ 32 →
  is_argsort (data image) sorted_pixels →
  maxtree_berger_from sorted_pixels image connection8
  = Some (parents, order) →
  ∀ p, 0 ≤ p < Z.of_nat (length (data image)) →
    ∃ path r,
      chain (data parents) p path r ∧
      0 ≤ r < Z.of_nat (length (data image)) ∧
      Forall (λ x, 0 ≤ x < Z.of_nat (length (data image))) path.
Proof.
  intros Hrect Hsize Hsorted Hrun p Hp.
  destruct (maxtree_berger_from_inv _ _ _ _ _ Hrect Hsize Hsorted Hrun)
    as (_ & _ & P & Z0 & _ & _ & _ & Hlinked & _).
  destruct (order_position _ _ Hsorted p Hp) as [i Hi].
  destruct (linked_has_chain _ _ Hsorted 0 _ i p Hlinked ltac:(lia) Hi)
    as (path & r & Hc & _).
  exists path, r. split; [done|].
  destruct (linked_chain _ _ Hsorted _ _ _ _ _ _ Hlinked ltac:(lia) Hi Hc)
    as (j & Hj & Hr & Hpath).
  split; [by eapply order_range|].
  apply Forall_forall. intros x Hx.
  destruct (Hpath x Hx) as (jx & _ & Hjx).
  by eapply order_range.
Qed.

Lemma maxtree_berger_result_forest_witness :
  rectangular image_3x2 ∧
  Z.of_nat (length (data image_3x2)) + 2 < 2 ^ 32 ∧
  is_argsort (data image_3x2) (argsort (data image_3x2)) ∧
  maxtree_berger_from (argsort (data image_3x2)) image_3x2 true
  = Some (NdArray [3%nat; 2%nat] [0; 1; 0; 3; 0; 5], [0; 2; 4; 1; 5; 3]) ∧
  ∀ p, 0 ≤ p < Z.of_nat (length (data image_3x2)) →
    ∃ path r,
      chain [0; 1; 0; 3; 0; 5] p path r ∧
      0 ≤ r < Z.of_nat (length (data image_3x2)) ∧
      Forall (λ x, 0 ≤ x < Z.of_nat (length (data image_3x2))) path.
Proof.
  assert (rectangular image_3x2) as Hrect by reflexivity.
  assert (Z.of_nat (length (data image_3x2)) + 2 < 2 ^ 32) as Hsize
    by (vm_compute; reflexivity).
  split_and!; [done|done|apply argsort_is_argsort|reflexivity|].
  exact (maxtree_berger_result_forest (argsort (data image_3x2))
           image_3x2 true (NdArray [3%nat; 2%nat] [0; 1; 0; 3; 0; 5])
           [0; 2; 4; 1; 5; 3] Hrect Hsize
           (argsort_is_argsort (data image_3x2)) eq_refl).
Defined.

(** X13.  The returned parents are canonical: when the parent [q] of a
    pixel has itself a parent of the same intensity as [q], then [q] is
    its own parent. *)
Theorem maxtree_berger_result_canonical
    sorted_pixels image connection8 parents order :
  rectangular image →
  Z.of_nat (length (data image)) + 2 < 2 ^ 32 →
  is_argsort (data image) sorted_pixels →
  maxtree_berger_from sorted_pixels image connection8
  = Some (parents, order) →
  ∀ p q t v,
    0 ≤ p < Z.of_nat (length (data image)) →
    getitem (data parents) p = Some q →
    getitem (data parents) q = Some t →
    getitem (data image) q = Some v →
    getitem (data image) t = Some v →
    t = q.
Proof.
  intros Hrect Hsize Hsorted Hrun p q t v Hp Hq Ht Hvq Hvt.
  destruct (maxtree_berger_from_inv _ _ _ _ _ Hrect Hsize Hsorted Hrun)
    as (_ & _ & P & Z0 & _ & Hinv & Hcanon & _ & _).
  destruct Hinv as (Hlp & _ & HP & _). simpl in *.
  assert (canon_inv (data image) sorted_pixels (length sorted_pixels)
            (data parents)) as (_ & _ & Hsettled).
  { apply (canonize_canon_inv _ _ Hsorted [] sorted_pixels P);
      [done| |done].
    split_and!; [done..|]. intros i x y Hi. simpl in Hi. lia. }
  destruct (order_position _ _ Hsorted p Hp) as [i Hi].
  pose proof (lookup_lt_Some _ _ _ Hi) as Hlt.
  by apply (Hsettled i p q Hlt Hi Hq t v v).
Qed.

Lemma maxtree_berger_result_canonical_witness :
  rectangular image_3x2 ∧
  Z.of_nat (length (data image_3x2)) + 2 < 2 ^ 32 ∧
  is_argsort (data image_3x2) (argsort (data image_3x2)) ∧
  maxtree_berger_from (argsort (data image_3x2)) image_3x2 true
  = Some (NdArray [3%nat; 2%nat] [0; 1; 0; 3; 0; 5], [0; 2; 4; 1; 5; 3]) ∧
  ∀ p q t v,
    0 ≤ p < Z.of_nat (length (data image_3x2)) →
    getitem [0; 1; 0; 3; 0; 5] p = Some q →
    getitem [0; 1; 0; 3; 0; 5] q = Some t →
    getitem (data image_3x2) q = Some v →
    getitem (data image_3x2) t = Some v →
    t = q.
Proof.
  assert (rectangular image_3x2) as Hrect by reflexivity.
  assert (Z.of_nat (length (data image_3x2)) + 2 < 2 ^ 32) as Hsize
    by (vm_compute; reflexivity).
  split_and!; [done|done|apply argsort_is_argsort|reflexivity|].
  exact (maxtree_berger_result_canonical (argsort (data image_3x2))
           image_3x2 true (NdArray [3%nat; 2%nat] [0; 1; 0; 3; 0; 5])
           [0; 2; 4; 1; 5; 3] Hrect Hsize
           (argsort_is_argsort (data image_3x2)) eq_refl).
Defined.

(** X14.  An image without pixels (no row, or rows of no column) makes
    [maxtree_berger] return parents without entries and no sorted pixel,
    for both connectivities. *)
Theorem maxtree_berger_empty_image image connection8 w h :
  shape image = [w; h] → data image = [] →
  maxtree_berger image connection8 = Some (NdArray [w; h] [], []).
Proof.
  intros Hshape Hdata.
  unfold maxtree_berger, maxtree_berger_from, build.
  rewrite Hshape, Hdata. reflexivity.
Qed.

Lemma maxtree_berger_empty_image_witness :
  shape (NdArray [0%nat; 5%nat] []) = [0%nat; 5%nat] ∧
  data (NdArray [0%nat; 5%nat] []) = [] ∧
  maxtree_berger (NdArray [0%nat; 5%nat] []) true
  = Some (NdArray [0%nat; 5%nat] [], []).
Proof.
  split; [reflexivity|]. split; [reflexivity|].
  exact (maxtree_berger_empty_image (NdArray [0%nat; 5%nat] []) true
           0%nat 5%nat eq_refl eq_refl).
Defined.

(** ** The diagonals of [get_8_neighbors] *)

Lemma mod_pred_cases width p :
  0 < width →
  (p - 1) `mod` width
  = if decide (p `mod` width = 0) then width - 1 else p `mod` width - 1.
Proof.
  intros Hw. pose proof (Z.mod_pos_bound p width Hw) as Hb.
  pose proof (Z.div_mod p width ltac:(lia)) as Hp.
  case_decide as Hz; symmetry.
  - apply (Z.mod_unique_pos _ _ (p `div` width - 1)); lia.
  - apply (Z.mod_unique_pos _ _ (p `div` width)); lia.
Qed.

Lemma mod_succ_cases width p :
  0 < width →
  (p + 1) `mod` width
  = if decide (p `mod` width = width - 1) then 0 else p `mod` width + 1.
Proof.
  intros Hw. pose proof (Z.mod_pos_bound p width Hw) as Hb.
  pose proof (Z.div_mod p width ltac:(lia)) as Hp.
  case_decide as Hz; symmetry.
  - apply (Z.mod_unique_pos _ _ (p `div` width + 1)); lia.
  - apply (Z.mod_unique_pos _ _ (p `div` width)); lia.
Qed.

Lemma mod_shift_down width p : (p - width) `mod` width = p `mod` width.
Proof.
  replace (p - width) with (p + (-1) * width) by lia.
  apply Z_mod_plus_full.
Qed.

Lemma mod_shift_up width p : (p + width) `mod` width = p `mod` width.
Proof.
  replace (p + width) with (p + 1 * width) by lia.
  apply Z_mod_plus_full.
Qed.

(** X15.  On an image of three rows or more, [get_8_neighbors] adds to
    the two pixels of [get_4_neighbors] at most two diagonals:
    [pi - width - 1] when [pi] is not first in its class modulo [width],
    and [pi + width + 1] when it is not last; [pi - width + 1] and
    [pi + width - 1] are never returned. *)
Theorem get_8_neighbors_three_rows width height resolution pi n :
  3 ≤ width →
  n ∈ get_8_neighbors width height resolution pi (pi `mod` width) ↔
  (n = pi - width ∧ 0 ≤ n) ∨
  (n = pi + width ∧ n < resolution) ∨
  (n = pi - width - 1 ∧ 0 ≤ n ∧ pi `mod` width ≠ 0) ∨
  (n = pi + width + 1 ∧ n < resolution ∧ pi `mod` width ≠ width - 1).
Proof.
  intros Hw. rewrite elem_of_get_8_neighbors, elem_of_get_4_neighbors.
  replace (pi - width - 1) with (pi - 1 - width) by lia.
  replace (pi - 1 - width + 2) with (pi + 1 - width) by lia.
  replace (pi + width - 1) with (pi - 1 + width) by lia.
  replace (pi - 1 + width + 2) with (pi + 1 + width) by lia.
  rewrite !mod_shift_down, !mod_shift_up.
  rewrite (mod_pred_cases width pi), (mod_succ_cases width pi) by lia.
  pose proof (Z.mod_pos_bound pi width ltac:(lia)) as Hb.
  set (m := pi `mod` width) in *. clearbody m.
  destruct (decide (m = 0)), (decide (m = width - 1));
    (split;
     [intros [[?|[?|[?|?]]]|[?|[?|[?|?]]]]|intros [?|[?|[?|?]]]]; lia).
Qed.

Lemma get_8_neighbors_three_rows_witness :
  3 ≤ 3 ∧
  (8 ∈ get_8_neighbors 3 3 9 4 (4 `mod` 3) ↔
   (8 = 4 - 3 ∧ 0 ≤ 8) ∨
   (8 = 4 + 3 ∧ 8 < 9) ∨
   (8 = 4 - 3 - 1 ∧ 0 ≤ 8 ∧ 4 `mod` 3 ≠ 0) ∨
   (8 = 4 + 3 + 1 ∧ 8 < 9 ∧ 4 `mod` 3 ≠ 3 - 1)).
Proof.
  split; [lia|].
  exact (get_8_neighbors_three_rows 3 3 9 4 8 ltac:(lia)).
Defined.

(** ** [canonize] within bounds *)

Lemma canonize_step_in_bounds image n parents pi :
  length parents = n →
  Forall (λ v, 0 ≤ v < Z.of_nat (length image) ∧ v < Z.of_nat n) parents →
  0 ≤ pi < Z.of_nat n →
  ∃ parents',
    canonize_step image parents pi = Some parents' ∧
    length parents' = n ∧
    Forall (λ v, 0 ≤ v < Z.of_nat (length image) ∧ v < Z.of_nat n) parents'.
Proof.
  intros Hlen Hall Hpi. unfold canonize_step.
  rewrite Forall_lookup in Hall.
  destruct (lookup_lt_is_Some_2 parents (Z.to_nat pi)) as [root Hroot];
    [lia|].
  pose proof (Hall _ _ Hroot) as [Hr1 Hr2].
  rewrite (getitem_nonneg parents pi), Hroot by lia. simpl.
  destruct (lookup_lt_is_Some_2 image (Z.to_nat root)) as [ir Hir]; [lia|].
  rewrite (getitem_nonneg image root), Hir by lia. simpl.
  destruct (lookup_lt_is_Some_2 parents (Z.to_nat root)) as [pr Hpr]; [lia|].
  pose proof (Hall _ _ Hpr) as [Hp1 Hp2].
  rewrite (getitem_nonneg parents root), Hpr by lia. simpl.
  destruct (lookup_lt_is_Some_2 image (Z.to_nat pr)) as [ipr Hipr]; [lia|].
  rewrite (getitem_nonneg image pr), Hipr by lia. simpl.
  case_decide.
  - rewrite setitem_nonneg by lia. eexists. split; [done|].
    split; [by rewrite length_insert|].
    apply Forall_insert; [by apply Forall_lookup|done].
  - eexists. split; [done|]. split; [done|]. by apply Forall_lookup.
Qed.

(** X16.  [canonize] raises nothing when every entry of [parents] is an
    index of both [image] and [parents] and every pixel of [nodes_order]
    is an index of [parents]; the entries stay such indices. *)
Theorem canonize_returns_in_bounds image parents nodes_order :
  Forall (λ v, 0 ≤ v < Z.of_nat (length image)
               ∧ v < Z.of_nat (length parents)) parents →
  Forall (λ pi, 0 ≤ pi < Z.of_nat (length parents)) nodes_order →
  ∃ parents',
    canonize image parents nodes_order = Some parents' ∧
    length parents' = length parents ∧
    Forall (λ v, 0 ≤ v < Z.of_nat (length image)
                 ∧ v < Z.of_nat (length parents)) parents'.
Proof.
  intros Hall Horder. unfold canonize.
  apply (for_each_total (canonize_step image)
           (λ a, length a = length parents ∧
                 Forall (λ v, 0 ≤ v < Z.of_nat (length image)
                              ∧ v < Z.of_nat (length parents)) a));
    [|done].
  intros a pi Hpi [Hlen Ha]. rewrite Forall_forall in Horder.
  by apply canonize_step_in_bounds; [| |apply Horder].
Qed.

Lemma canonize_returns_in_bounds_witness :
  Forall (λ v, 0 ≤ v < Z.of_nat (length [3; 3; 5])
               ∧ v < Z.of_nat (length [0; 0; 1])) [0; 0; 1] ∧
  Forall (λ pi, 0 ≤ pi < Z.of_nat (length [0; 0; 1])) [0; 1; 2] ∧
  ∃ parents',
    canonize [3; 3; 5] [0; 0; 1] [0; 1; 2] = Some parents' ∧
    length parents' = length [0; 0; 1] ∧
    Forall (λ v, 0 ≤ v < Z.of_nat (length [3; 3; 5])
                 ∧ v < Z.of_nat (length [0; 0; 1])) parents'.
Proof.
  assert (Forall (λ v, 0 ≤ v < Z.of_nat (length [3; 3; 5])
                       ∧ v < Z.of_nat (length [0; 0; 1])) [0; 0; 1]) as H1
    by (repeat constructor; simpl; lia).
  assert (Forall (λ pi, 0 ≤ pi < Z.of_nat (length [0; 0; 1])) [0; 1; 2])
    as H2 by (repeat constructor; simpl; lia).
  split; [exact H1|]. split; [exact H2|].
  exact (canonize_returns_in_bounds [3; 3; 5] [0; 0; 1] [0; 1; 2] H1 H2).
Defined.

(** ** 4-connectivity links a pixel only to pixels of its class *)

Section classes.
Context (flat order : list Z).
Context (Horder : is_argsort flat order).
Context (Hsize : Z.of_nat (length flat) + 2 < 2 ^ 32).
Context (width : Z).

Lemma same_class_insert k a i p q :
  length a = length flat →
  same_class order width k a → order !! i = Some p →
  q `mod` width = p `mod` width →
  same_class order width k (<[Z.to_nat p := q]> a).
Proof.
  intros Hlen Ha Hp Hq i' p' q' Hi' Hp' Hq'.
  destruct (decide (i' = i)) as [->|Hne].
  - assert (p' = p) as -> by congruence.
    pose proof (order_range _ _ Horder _ _ Hp).
    rewrite list_lookup_insert_eq in Hq' by lia. congruence.
  - rewrite list_lookup_insert_ne in Hq'; [by eapply Ha|].
    intros Heq. apply Hne. symmetry.
    by eapply (order_to_nat_inj flat order Horder).
Qed.

Lemma same_class_visit k a pi :
  length a = length flat →
  same_class order width (S k) a → order !! k = Some pi →
  same_class order width k (<[Z.to_nat pi := pi]> a).
Proof.
  intros Hlen Ha Hpi i p q Hi Hp Hq.
  destruct (decide (i = k)) as [->|Hne].
  - assert (p = pi) as -> by congruence.
    pose proof (order_range _ _ Horder _ _ Hp).
    rewrite list_lookup_insert_eq in Hq by lia. congruence.
  - rewrite list_lookup_insert_ne in Hq; [apply (Ha i); [lia|done..]|].
    intros Heq. apply Hne.
    by eapply (order_to_nat_inj flat order Horder).
Qed.

Lemma same_class_chain k z i x path r :
  linked order k z → same_class order width k z →
  (k ≤ i)%nat → order !! i = Some x → chain z x path r →
  r `mod` width = x `mod` width ∧
  ∀ y, y ∈ path → y `mod` width = x `mod` width.
Proof.
  intros Hz Hclass Hi Hx Hc. revert i Hi Hx.
  induction Hc as [r Hr|x x1 path r Hx1 Hne Hc IH]; intros i Hi Hx.
  - split; [done|]. intros y Hy. by apply elem_of_nil in Hy.
  - destruct (linked_getitem flat order Horder _ _ _ _ Hz Hi Hx)
      as (j1 & q & Hj1 & Hq & Hget).
    assert (q = x1) as -> by congruence.
    pose proof (order_range _ _ Horder _ _ Hx) as Hrx.
    rewrite getitem_nonneg in Hget by lia.
    pose proof (Hclass i x x1 Hi Hx Hget) as Hx1x.
    destruct (IH j1 ltac:(lia) Hq) as [Hr Hpath].
    split; [congruence|].
    intros y Hy. apply elem_of_cons in Hy as [->|Hy]; [done|].
    rewrite <- Hx1x. by apply Hpath.
Qed.

Lemma same_class_compress k z j r path :
  length z = length flat → same_class order width k z →
  (∀ y, y ∈ path → ∃ iy, (j ≤ iy)%nat ∧ order !! iy = Some y) →
  (∀ y, y ∈ path → r `mod` width = y `mod` width) →
  same_class order width k (compress z path r).
Proof.
  intros Hlen Hz.
  induction path as [|y path IH]; intros Hpath Hclass; simpl; [done|].
  destruct (Hpath y ltac:(by left)) as (iy & Hiy & Hy).
  pose proof (order_range _ _ Horder _ _ Hy).
  rewrite setitem_nonneg by (rewrite compress_length; lia). simpl.
  eapply same_class_insert; [by rewrite compress_length| |done|].
  - apply IH; intros y' Hy'; [apply Hpath|apply Hclass]; by right.
  - apply Hclass. by left.
Qed.

Lemma merge_node_same_class k pi i nei_pi st st' :
  order !! k = Some pi → (k ≤ i)%nat → order !! i = Some nei_pi →
  nei_pi `mod` width = pi `mod` width →
  pass_inv flat order k st →
  same_class order width k st.1 → same_class order width k st.2 →
  merge_node pi st nei_pi = Some st' →
  same_class order width k st'.1 ∧ same_class order width k st'.2.
Proof.
  destruct st as [P Z0].
  intros Hpi Hi Hnei Hcl (Hlp & Hlz & HP & HZ & HF) HcP HcZ.
  simpl in *. unfold merge_node.
  destruct (find_pixel_parent Z0 nei_pi) as [[z1 r]|] eqn:Hfind; [|done].
  simpl. apply find_pixel_parent_rec_inv in Hfind as (path & Hc & ->).
  destruct (linked_chain flat order Horder _ _ _ _ _ _ HZ Hi Hnei Hc)
    as (j & Hj & Hr & Hpath).
  destruct (same_class_chain _ _ _ _ _ _ HZ HcZ Hi Hnei Hc)
    as [Hrcl Hpathcl].
  assert (linked order k (compress Z0 path r)) as Hz1.
  { eapply (linked_compress flat order Horder); [done|done| |done|done].
    lia. }
  assert (same_class order width k (compress Z0 path r)) as Hcz1.
  { eapply same_class_compress; [done|done|done|].
    intros y Hy. rewrite (Hpathcl y Hy). done. }
  case_decide as Hne.
  - rewrite (to_uint32_pixel flat order Horder Hsize _ _ Hpi).
    destruct (setitem (compress Z0 path r) r pi) as [z2|] eqn:Hz2; [|done].
    simpl.
    destruct (linked_setitem flat order Horder k (compress Z0 path r)
                j r k pi z2) as [Hz2l Hz2len];
      [by rewrite compress_length|done|done|done|lia|done|].
    assert (same_class order width k z2) as Hcz2.
    { pose proof (order_range _ _ Horder _ _ Hr).
      rewrite setitem_nonneg in Hz2 by (rewrite compress_length; lia).
      injection Hz2 as <-.
      eapply same_class_insert; [by rewrite compress_length|done|done|].
      congruence. }
    destruct (linked_getitem flat order Horder _ _ _ _ Hz2l Hi Hnei)
      as (j' & r' & Hj' & Hr' & Hget).
    rewrite Hget. simpl.
    destruct (setitem P r' pi) as [P2|] eqn:HP2; [|done].
    simpl. intros [= <-]. simpl. split; [|done].
    pose proof (order_range _ _ Horder _ _ Hnei).
    pose proof (order_range _ _ Horder _ _ Hr').
    rewrite getitem_nonneg in Hget by lia.
    pose proof (Hcz2 i nei_pi r' Hi Hnei Hget) as Hr'cl.
    rewrite setitem_nonneg in HP2 by lia. injection HP2 as <-.
    eapply same_class_insert; [done|done|done|]. congruence.
  - intros [= <-]. done.
Qed.

Lemma get_4_neighbors_same_class height resolution pi n :
  2 ≤ width →
  n ∈ get_4_neighbors width height resolution pi (pi `mod` width) →
  n `mod` width = pi `mod` width.
Proof.
  intros Hw. rewrite get_4_neighbors_vertical by done.
  rewrite !elem_of_append_if, elem_of_nil.
  intros [[[]|[_ ->]]|[_ ->]];
    [apply mod_shift_down|apply mod_shift_up].
Qed.

Lemma visit_pixel_same_class height k pi st st' :
  2 ≤ width → order !! k = Some pi →
  pass_inv flat order (S k) st →
  same_class order width (S k) st.1 → same_class order width (S k) st.2 →
  visit_pixel width height (Z.of_nat (length flat))
              (Z.of_nat (length flat) + 2) false st pi = Some st' →
  same_class order width k st'.1 ∧ same_class order width k st'.2.
Proof.
  destruct st as [P Z0]. intros Hw Hpi (Hlp & Hlz & HP & HZ & HF) HcP HcZ.
  simpl in *. unfold visit_pixel.
  pose proof (order_range _ _ Horder _ _ Hpi) as Hrange.
  rewrite (to_uint32_pixel flat order Horder Hsize _ _ Hpi).
  rewrite !setitem_nonneg by lia. simpl.
  set (neighbors := get_4_neighbors _ _ _ _ _).
  destruct (filter_defined _ _ neighbors) as [l|] eqn:Hl; [|done]. simpl.
  assert (l ⊆ neighbors) as Hsub.
  { clear -Hl. revert l Hl.
    induction neighbors as [|n neighbors IH]; intros l Hl; simpl in Hl.
    - by injection Hl as <-.
    - destruct (getitem _ n); [|done]. simpl in Hl.
      destruct (filter_defined _ _ neighbors) as [rest|]; [|done].
      simpl in Hl. injection Hl as <-. specialize (IH rest eq_refl).
      case_decide; intros x Hx.
      + apply elem_of_cons in Hx as [->|Hx]; [by left|right; by apply IH].
      + right. by apply IH. }
  apply (filter_defined_visited flat order Horder k) in Hl;
    [|by apply (fresh_visit flat order Horder)
     |by apply get_4_neighbors_in_range].
  rewrite Forall_forall in Hl.
  intros Hrun.
  apply (for_each_invariant (merge_node pi)
           (λ s, pass_inv flat order k s ∧
                 same_class order width k s.1 ∧
                 same_class order width k s.2) l) in Hrun; [tauto| |].
  - intros s x s' Hx (Hs & Hs1 & Hs2) Hm.
    destruct (Hl x Hx) as (i & Hi & Hxi).
    split; [by eapply (merge_node_inv flat order Horder Hsize)|].
    eapply merge_node_same_class; [done|done|done| |done|done|done|done].
    eapply get_4_neighbors_same_class; [done|]. by apply Hsub.
  - split_and!; simpl.
    + split_and!; simpl; rewrite ?length_insert; try done.
      * by apply (linked_visit flat order Horder).
      * by apply (linked_visit flat order Horder).
      * by apply (fresh_visit flat order Horder).
    + by apply same_class_visit.
    + by apply same_class_visit.
Qed.

Lemma pass_same_class height pre suf st st' :
  2 ≤ width → order = pre ++ suf →
  pass_inv flat order (length pre) st →
  same_class order width (length pre) st.1 →
  same_class order width (length pre) st.2 →
  for_each (visit_pixel width height (Z.of_nat (length flat))
              (Z.of_nat (length flat) + 2) false) st (reverse pre)
  = Some st' →
  same_class order width 0 st'.1.
Proof.
  intros Hw. revert suf st.
  induction pre as [|x pre IH] using rev_ind;
    intros suf st Horder' Hst Hc1 Hc2 Hrun.
  - simpl in Hrun. by injection Hrun as <-.
  - rewrite reverse_snoc in Hrun. simpl in Hrun.
    destruct (visit_pixel _ _ _ _ _ st x) as [st1|] eqn:Hvisit; [|done].
    simpl in Hrun. rewrite length_app in Hst, Hc1, Hc2. simpl in *.
    replace (length pre + 1)%nat with (S (length pre)) in * by lia.
    assert (order !! length pre = Some x) as Hx.
    { rewrite Horder', <- app_assoc. by apply list_lookup_middle. }
    destruct (visit_pixel_same_class _ _ _ _ _ Hw Hx Hst Hc1 Hc2 Hvisit)
      as [Hc1' Hc2'].
    apply (IH (x :: suf) st1); [by rewrite Horder', <- app_assoc| |done..].
    by eapply (visit_pixel_inv flat order Horder Hsize).
Qed.

Lemma canonize_same_class P P' :
  length P = length flat → linked order 0 P →
  same_class order width 0 P →
  canonize flat P order = Some P' → same_class order width 0 P'.
Proof.
  intros Hlen HP Hc. unfold canonize. intros Hrun.
  apply (for_each_invariant (canonize_step flat)
           (λ a, (linked order 0 a ∧ length a = length flat)
                 ∧ same_class order width 0 a) order) in Hrun;
    [tauto| |done].
  intros a x a' Hx [[Ha Hla] Hca] Hstep.
  apply list_elem_of_lookup_1 in Hx as [i Hi].
  split; [by eapply (canonize_step_linked flat order Horder)|].
  unfold canonize_step in Hstep.
  destruct (linked_getitem flat order Horder 0 a i x Ha ltac:(lia) Hi)
    as (j & q & Hj & Hq & Hroot).
  rewrite Hroot in Hstep. simpl in Hstep.
  destruct (getitem flat q) as [vq|]; [|done]. simpl in Hstep.
  destruct (linked_getitem flat order Horder 0 a j q Ha ltac:(lia) Hq)
    as (j' & t & Hj' & Ht & Hproot).
  rewrite Hproot in Hstep. simpl in Hstep.
  destruct (getitem flat t) as [vt|]; [|done]. simpl in Hstep.
  case_decide; [|by injection Hstep as <-].
  pose proof (order_range _ _ Horder _ _ Hi).
  pose proof (order_range _ _ Horder _ _ Hq).
  rewrite getitem_nonneg in Hroot, Hproot by lia.
  rewrite setitem_nonneg in Hstep by lia. injection Hstep as <-.
  eapply same_class_insert; [done|done|done|].
  rewrite (Hca j q t ltac:(lia) Hq Hproot).
  by apply (Hca i x q ltac:(lia) Hi Hroot).
Qed.
End classes.

(** X17.  With 4-connectivity on an image of two rows or more, the parent
    of every pixel differs from the pixel by a multiple of the number of
    rows ([width]): the returned forest never links two pixels of
    different classes modulo [width]. *)
Theorem maxtree_berger_4_same_class sorted_pixels image parents order w h :
  shape image = [w; h] → (2 ≤ w)%nat →
  Z.of_nat (length (data image)) + 2 < 2 ^ 32 →
  is_argsort (data image) sorted_pixels →
  maxtree_berger_from sorted_pixels image false = Some (parents, order) →
  ∀ (p : nat) q, data parents !! p = Some q →
                 q `mod` Z.of_nat w = Z.of_nat p `mod` Z.of_nat w.
Proof.
  intros Hshape Hw Hsize Hsorted. unfold maxtree_berger_from, build.
  rewrite Hshape. simpl.
  destruct (for_each _ _ (reverse sorted_pixels)) as [[P Z0]|] eqn:Hpass;
    [|done].
  simpl.
  destruct (canonize (data image) P sorted_pixels) as [P'|] eqn:Hcanon;
    [|done].
  simpl. intros [= <- <-] p q Hq. simpl in Hq.
  pose proof (pass_inv_initial _ _ Hsorted Hsize) as Hinit.
  pose proof (pass_inv_run (data image) sorted_pixels Hsorted Hsize
                (Z.of_nat w) (Z.of_nat h) false sorted_pixels []
                _ _ ltac:(lia) ltac:(by rewrite app_nil_r) Hinit Hpass)
    as (Hlp & _ & HP & _).
  simpl in *.
  assert (same_class sorted_pixels (Z.of_nat w) 0 P) as HcP.
  { pose proof (pass_same_class (data image) sorted_pixels Hsorted Hsize
                  (Z.of_nat w) (Z.of_nat h) sorted_pixels [] _ (P, Z0)
                  ltac:(lia) ltac:(by rewrite app_nil_r) Hinit) as Hrun.
    apply Hrun; [| |done];
      intros i x y Hi Hx; apply lookup_lt_Some in Hx; lia. }
  pose proof (canonize_same_class (data image) sorted_pixels Hsorted
                (Z.of_nat w) P P' Hlp HP HcP Hcanon) as HcP'.
  pose proof (lookup_lt_Some _ _ _ Hq) as Hlt.
  destruct (canonize_linked _ _ Hsorted P P' Hlp HP Hcanon) as [_ Hlen'].
  destruct (order_position _ _ Hsorted (Z.of_nat p) ltac:(lia)) as [i Hi].
  apply (HcP' i (Z.of_nat p) q ltac:(lia) Hi). by rewrite Nat2Z.id.
Qed.

Lemma maxtree_berger_4_same_class_witness :
  shape image_2x3 = [2%nat; 3%nat] ∧ (2 ≤ 2)%nat ∧
  Z.of_nat (length (data image_2x3)) + 2 < 2 ^ 32 ∧
  is_argsort (data image_2x3) (argsort (data image_2x3)) ∧
  maxtree_berger_from (argsort (data image_2x3)) image_2x3 false
  = Some (NdArray [2%nat; 3%nat] [4; 1; 2; 3; 4; 5], [4; 0; 2; 1; 3; 5]) ∧
  ∀ (p : nat) q, [4; 1; 2; 3; 4; 5] !! p = Some q →
                 q `mod` Z.of_nat 2 = Z.of_nat p `mod` Z.of_nat 2.
Proof.
  assert (Z.of_nat (length (data image_2x3)) + 2 < 2 ^ 32) as Hsize
    by (vm_compute; reflexivity).
  split_and!; [reflexivity|lia|done|apply argsort_is_argsort|reflexivity|].
  exact (maxtree_berger_4_same_class (argsort (data image_2x3)) image_2x3
           (NdArray [2%nat; 3%nat] [4; 1; 2; 3; 4; 5]) [4; 0; 2; 1; 3; 5]
           2%nat 3%nat eq_refl ltac:(lia) Hsize
           (argsort_is_argsort (data image_2x3)) eq_refl).
Defined.
